(** * Call graph generator: the extraction engine of [codeanalyzer.py]

    A shallow embedding of the syntax-tree visitor [CallGraphAnalyzer], of
    [analyze_file] and of the registry merge and relationship flattening of
    [generate_call_graph], followed by the properties of the specification
    that concern them.

    Python values are modelled as follows.
    - A [dict] is an association list in insertion order with unique keys:
      assigning to a key that is present replaces the value where it
      stands, assigning to a new key appends the pair.
    - A syntax tree is an inductive type with one constructor per node
      class the visitor or the specification distinguishes; fields are kept
      in the order of the class's [_fields], which is the order in which
      [NodeVisitor.generic_visit] walks them.
    - The visitor mutates [self]; here it passes an [analyzer] record along.
    - A raised exception is the [Raise] case of [result]; what [open],
      [read] and [ast.parse] raise is part of the input.
    - The interpreter's stack is bounded: every call of a Python function
      takes a frame, a generator holds one while it runs, and a call with
      no frame left raises [RecursionError].  The traversal carries the
      number of frames it may still take. *)

From Stdlib Require Import List String Ascii ZArith Bool Lia.
Import ListNotations.
Open Scope string_scope.
Open Scope list_scope.

(** ** Exceptions *)

Inductive exn : Type :=
| KeyError (key : string)
| RecursionError.

Inductive result (A : Type) : Type :=
| Ok (a : A)
| Raise (e : exn).

Arguments Ok {A} a.
Arguments Raise {A} e.

Definition bind {A B : Type} (m : result A) (k : A -> result B) : result B :=
  match m with
  | Ok a => k a
  | Raise e => Raise e
  end.

Notation "x <- m ;; k" := (bind m (fun x => k))
  (at level 61, m at next level, right associativity).

(** A call of a Python function takes a frame of the interpreter's stack:
    with no frame left it raises [RecursionError], otherwise the body runs
    with one frame less.  [depth] is the number of frames that may still be
    taken. *)
Definition with_frame {A : Type} (depth : nat) (body : nat -> result A)
  : result A :=
  match depth with
  | 0 => Raise RecursionError
  | S depth => body depth
  end.

(** [iter_fields(node)] is a generator: it holds a frame while it runs,
    to yield the next field or to end. *)
Definition iter_fields (depth : nat) : result unit :=
  with_frame depth (fun _ => Ok tt).

Section ForEach.
Context {A S : Type} (f : A -> S -> result S).

(** [for item in l: f(item)], stopping at the first exception. *)
Fixpoint for_each (l : list A) (s : S) : result S :=
  match l with
  | [] => Ok s
  | x :: r =>
      match f x s with
      | Ok s' => for_each r s'
      | Raise e => Raise e
      end
  end.
End ForEach.

(** ** Python dictionaries keyed by strings *)

Module Dict.
Section Dict.
Context {V : Type}.

Definition t : Type := list (string * V).

Definition empty : t := [].

Fixpoint get (k : string) (d : t) : option V :=
  match d with
  | [] => None
  | (k', v) :: r => if String.eqb k k' then Some v else get k r
  end.

(** [d[k] = v]: an existing key keeps its position. *)
Fixpoint set (k : string) (v : V) (d : t) : t :=
  match d with
  | [] => [(k, v)]
  | (k', v') :: r =>
      if String.eqb k k' then (k', v) :: r else (k', v') :: set k v r
  end.

(** [d.update(other)]: assigns the items of [other] in its order. *)
Definition update (d other : t) : t :=
  fold_left (fun acc kv => set (fst kv) (snd kv) acc) other d.

Definition keys (d : t) : list string := map fst d.

Definition values (d : t) : list V := map snd d.

Definition len (d : t) : nat := List.length d.

Definition mem (k : string) (d : t) : bool :=
  match get k d with Some _ => true | None => false end.
End Dict.
Arguments t V : clear implicits.
End Dict.

(** ** Syntax trees

    The classes of Python's [ast] that [NodeVisitor.visit] dispatches on
    here ([FunctionDef], [Call]), those that [_get_call_name] tests
    ([Name], [Attribute]), the other definition forms and the statement and
    parameter nodes the specification speaks of.  Every remaining class is
    [Other], carrying its node-valued fields flattened in field order.
    Fields that hold no node ([type_comment], ...) are left out:
    [generic_visit] does nothing on them; so is [type_ignores] of
    [Module], which [ast.parse] leaves empty as it is called here.  The
    [ctx] field of [Name] and [Attribute] holds a node without fields
    ([Load], [Store] or [Del]): it is no parameter of the constructors,
    and the traversal visits it as [expr_context]. *)

Local Unset Elimination Schemes.

Inductive node : Type :=
| Module (body : list node)
| FunctionDef (name : string) (lineno : Z) (args : node)
    (body decorator_list : list node) (returns : option node)
    (type_params : list node)
| AsyncFunctionDef (name : string) (lineno : Z) (args : node)
    (body decorator_list : list node) (returns : option node)
    (type_params : list node)
| ClassDef (name : string) (bases keywords body decorator_list : list node)
    (type_params : list node)
| Lambda (args : node) (body : node)
| arguments (posonlyargs args : list node) (vararg : option node)
    (kwonlyargs : list node) (kw_defaults : list (option node))
    (kwarg : option node) (defaults : list node)
| Expr (value : node)
| Call (func : node) (args keywords : list node)
| Name (id : string)
| Attribute (value : node) (attr : string)
| Other (fields : list node).

Local Set Elimination Schemes.

(** The node in a [ctx] field. *)
Definition expr_context : node := Other [].

Definition option_nodes (o : option node) : list node :=
  match o with
  | Some n => [n]
  | None => []
  end.

(** The child nodes of a node, in the order [generic_visit] meets them. *)
Definition children (n : node) : list node :=
  match n with
  | Module b => b
  | FunctionDef _ _ a b d r tp
  | AsyncFunctionDef _ _ a b d r tp => a :: b ++ d ++ option_nodes r ++ tp
  | ClassDef _ bs ks b d tp => bs ++ ks ++ b ++ d ++ tp
  | Lambda a b => [a; b]
  | arguments p a v k kd kw df =>
      p ++ a ++ option_nodes v ++ k ++ flat_map option_nodes kd
        ++ option_nodes kw ++ df
  | Expr v => [v]
  | Call f a k => f :: a ++ k
  | Name _ => [expr_context]
  | Attribute v _ => [v; expr_context]
  | Other l => l
  end.

(** ** The visitor *)

(** The dictionary stored per function. *)
Record func_info : Type := {
  name : string;
  file : string;
  line : Z;
  calls : list string
}.

Record analyzer : Type := {
  file_path : string;
  functions : Dict.t func_info;
  current_function : option string
}.

(** [posixpath.basename]: what follows the last ['/']. *)
Fixpoint has_sep (p : string) : bool :=
  match p with
  | EmptyString => false
  | String c r => Ascii.eqb c "/"%char || has_sep r
  end.

Fixpoint basename (p : string) : string :=
  match p with
  | EmptyString => EmptyString
  | String c r =>
      if has_sep r then basename r
      else if Ascii.eqb c "/"%char then r else p
  end.

(** Truth value of an [Optional[str]]: [None] and the empty string are
    false. *)
Definition truthy (o : option string) : bool :=
  match o with
  | Some s => negb (String.eqb s "")
  | None => false
  end.

(** [CallGraphAnalyzer.__init__] *)
Definition init (path : string) : analyzer :=
  {| file_path := path; functions := Dict.empty; current_function := None |}.

Definition set_functions (fs : Dict.t func_info) (self : analyzer) : analyzer :=
  {| file_path := file_path self; functions := fs;
     current_function := current_function self |}.

Definition set_current_function (c : option string) (self : analyzer)
  : analyzer :=
  {| file_path := file_path self; functions := functions self;
     current_function := c |}.

(** [_get_call_name], on the [func] field of the call node. *)
Definition _get_call_name (func : node) : option string :=
  match func with
  | Name id => Some id
  | Attribute _ attr => Some attr
  | _ => None
  end.

(** [self.functions[key]['calls'].append(called)] *)
Definition append_call (key called : string) (self : analyzer)
  : result analyzer :=
  match Dict.get key (functions self) with
  | Some info =>
      Ok (set_functions
            (Dict.set key
               {| name := name info; file := file info; line := line info;
                  calls := calls info ++ [called] |}
               (functions self))
            self)
  | None => Raise (KeyError key)
  end.

(** [visit_FunctionDef] before it descends: the record of the function is
    created, or replaced, and the function becomes the active one. *)
Definition enter_function (func_name : string) (lineno : Z) (self : analyzer)
  : analyzer :=
  set_current_function (Some func_name)
    (set_functions
       (Dict.set func_name
          {| name := func_name; file := basename (file_path self);
             line := lineno; calls := [] |}
          (functions self))
       self).

(** [visit_FunctionDef], for a node with the given [name] and [lineno];
    [generic_visit] is the traversal of the fields of the node. *)
Definition visit_FunctionDef
  (generic_visit : nat -> node -> analyzer -> result analyzer)
  (depth : nat) (n : node) (func_name : string) (lineno : Z)
  (self : analyzer) : result analyzer :=
  with_frame depth (fun depth =>
    let self := enter_function func_name lineno self in
    self <- generic_visit depth n self ;;
    Ok (set_current_function None self)).

(** [visit_Call] before it descends: the two tests and the append. *)
Definition record_call (func : node) (self : analyzer) : result analyzer :=
  if truthy (current_function self) then
    let called_func := _get_call_name func in
    if truthy called_func then
      match current_function self, called_func with
      | Some cur, Some called => append_call cur called self
      | _, _ => Ok self
      end
    else Ok self
  else Ok self.

(** [visit_Call], for a node with the given [func]. *)
Definition visit_Call
  (generic_visit : nat -> node -> analyzer -> result analyzer)
  (depth : nat) (n func : node) (self : analyzer) : result analyzer :=
  with_frame depth (fun depth =>
    self <- record_call func self ;;
    generic_visit depth n self).

Definition visit_option {S : Type} (f : node -> S -> result S)
  (o : option node) (s : S) : result S :=
  match o with
  | Some n => f n s
  | None => Ok s
  end.

(** The visit of a node without fields, as the one in a [ctx] field:
    [visit] and [generic_visit] take a frame each, [iter_fields] runs and
    yields nothing. *)
Definition visit_expr_context (depth : nat) (self : analyzer)
  : result analyzer :=
  with_frame depth (fun depth =>
    with_frame depth (fun depth =>
      fields <- iter_fields depth ;;
      Ok self)).

(** [NodeVisitor.visit]: [visit_FunctionDef] and [visit_Call] for their
    classes, [generic_visit] for every other one.  Frames are taken by
    [visit], by the method it dispatches to, by the [generic_visit] that
    [visit_FunctionDef] and [visit_Call] call, and by [iter_fields] while
    it runs.  [_get_call_name] and [os.path.basename] take frames too and
    return before the descent; the descent that follows needs more frames
    than they do, so they are left out of the count. *)
Fixpoint visit (depth : nat) (n : node) (self : analyzer) {struct n}
  : result analyzer :=
  let generic_visit (depth : nat) (n : node) (self : analyzer)
    : result analyzer :=
    with_frame depth (fun depth =>
      fields <- iter_fields depth ;;
      match n with
      | Module b => for_each (visit depth) b self
      | FunctionDef _ _ a b d r tp
      | AsyncFunctionDef _ _ a b d r tp =>
          self <- visit depth a self ;;
          self <- for_each (visit depth) b self ;;
          self <- for_each (visit depth) d self ;;
          self <- visit_option (visit depth) r self ;;
          for_each (visit depth) tp self
      | ClassDef _ bs ks b d tp =>
          self <- for_each (visit depth) bs self ;;
          self <- for_each (visit depth) ks self ;;
          self <- for_each (visit depth) b self ;;
          self <- for_each (visit depth) d self ;;
          for_each (visit depth) tp self
      | Lambda a b =>
          self <- visit depth a self ;;
          visit depth b self
      | arguments p a v k kd kw df =>
          self <- for_each (visit depth) p self ;;
          self <- for_each (visit depth) a self ;;
          self <- visit_option (visit depth) v self ;;
          self <- for_each (visit depth) k self ;;
          self <- for_each (visit_option (visit depth)) kd self ;;
          self <- visit_option (visit depth) kw self ;;
          for_each (visit depth) df self
      | Expr v => visit depth v self
      | Call f a k =>
          self <- visit depth f self ;;
          self <- for_each (visit depth) a self ;;
          for_each (visit depth) k self
      | Name _ => visit_expr_context depth self
      | Attribute v _ =>
          self <- visit depth v self ;;
          visit_expr_context depth self
      | Other l => for_each (visit depth) l self
      end) in
  with_frame depth (fun depth =>
    match n with
    | FunctionDef func_name lineno _ _ _ _ _ =>
        visit_FunctionDef generic_visit depth n func_name lineno self
    | Call func _ _ => visit_Call generic_visit depth n func self
    | _ => generic_visit depth n self
    end).

(** [generic_visit], as the loop over the child nodes that it is. *)
Definition generic_visit (depth : nat) (n : node) (self : analyzer)
  : result analyzer :=
  with_frame depth (fun depth =>
    fields <- iter_fields depth ;;
    for_each (visit depth) (children n) self).

(** ** Per-file analysis and assembly *)

(** What reading and parsing one file gives: a tree, or the exception
    raised by [open], [read] or [ast.parse], with its message. *)
Inductive parse_result : Type :=
| Parsed (tree : node)
| Failed (message : string).

(** [sys.getrecursionlimit()]: the program never sets it, so it is the
    default of the interpreter. *)
Definition recursion_limit : nat := 1000.

(** The frames left when [analyze_file] calls [analyzer.visit]: the module,
    [main], [generate_call_graph] and [analyze_file] hold one each. *)
Definition available_frames : nat := recursion_limit - 4.

Record source_file : Type := {
  path : string;
  content : parse_result
}.

(** [str(e)] *)
Definition exn_message (e : exn) : string :=
  match e with
  | KeyError k => ("'" ++ k ++ "'")%string
  | RecursionError => "maximum recursion depth exceeded"
  end.

(** [analyze_file]: the mapping returned and the lines printed. *)
Definition analyze_file (f : source_file) : Dict.t func_info * list string :=
  match content f with
  | Parsed tree =>
      match visit available_frames tree (init (path f)) with
      | Ok self => (functions self, [])
      | Raise e =>
          (Dict.empty,
           [("Error analyzing " ++ path f ++ ": " ++ exn_message e)%string])
      end
  | Failed message =>
      (Dict.empty,
       [("Error analyzing " ++ path f ++ ": " ++ message)%string])
  end.

Record relationship : Type := {
  caller : string;
  callee : string;
  caller_file : string
}.

Record call_graph : Type := {
  repository : string;
  total_functions : nat;
  graph_functions : Dict.t func_info;
  call_relationships : list relationship
}.

(** One turn of the loop over [python_files]. *)
Definition analyze_step (acc : Dict.t func_info * list string)
  (f : source_file) : Dict.t func_info * list string :=
  let (all_functions, out) := acc in
  let (functions, printed) := analyze_file f in
  (Dict.update all_functions functions,
   out ++ ("Analyzing: " ++ basename (path f))%string :: printed).

Definition analyze_files (python_files : list source_file)
  : Dict.t func_info * list string :=
  fold_left analyze_step python_files (Dict.empty, []).

(** The nested loops that fill [call_relationships]. *)
Definition relationships_of (func_name : string) (func_info : func_info)
  : list relationship :=
  map (fun called_func =>
         {| caller := func_name; callee := called_func;
            caller_file := file func_info |})
      (calls func_info).

Definition build_relationships (all_functions : Dict.t func_info)
  : list relationship :=
  flat_map (fun kv => relationships_of (fst kv) (snd kv)) all_functions.

(** [generate_call_graph], from the files that [find_python_files] lists
    (cloning and clean-up are outside the model): the report and the lines
    printed by the loop. *)
Definition generate_call_graph (repo_url : string)
  (python_files : list source_file) : call_graph * list string :=
  let (all_functions, out) := analyze_files python_files in
  ({| repository := repo_url;
      total_functions := Dict.len all_functions;
      graph_functions := all_functions;
      call_relationships := build_relationships all_functions |},
   out).

(** ** The traversal order, for stating the properties

    [subnodes n] lists [n] and its descendants in depth-first pre-order,
    the order in which [visit] enters them. *)

Fixpoint subnodes (n : node) : list node :=
  let option_subnodes (o : option node) : list node :=
    match o with
    | Some c => subnodes c
    | None => []
    end in
  n :: match n with
       | Module b => flat_map subnodes b
       | FunctionDef _ _ a b d r tp
       | AsyncFunctionDef _ _ a b d r tp =>
           subnodes a ++ flat_map subnodes b ++ flat_map subnodes d
             ++ option_subnodes r ++ flat_map subnodes tp
       | ClassDef _ bs ks b d tp =>
           flat_map subnodes bs ++ flat_map subnodes ks
             ++ flat_map subnodes b ++ flat_map subnodes d
             ++ flat_map subnodes tp
       | Lambda a b => subnodes a ++ subnodes b
       | arguments p a v k kd kw df =>
           flat_map subnodes p ++ flat_map subnodes a ++ option_subnodes v
             ++ flat_map subnodes k ++ flat_map option_subnodes kd
             ++ option_subnodes kw ++ flat_map subnodes df
       | Expr v => subnodes v
       | Call f a k => subnodes f ++ flat_map subnodes a ++ flat_map subnodes k
       | Name _ => [expr_context]
       | Attribute v _ => subnodes v ++ [expr_context]
       | Other l => flat_map subnodes l
       end.

(** The proper descendants of [n], in the same order. *)
Definition descendants (n : node) : list node :=
  flat_map subnodes (children n).

(** The frames that the methods called for [n] itself hold while the
    traversal is below [n]: [visit] and [generic_visit], and between them
    [visit_FunctionDef] or [visit_Call] for their classes. *)
Definition own_frames (n : node) : nat :=
  match n with
  | FunctionDef _ _ _ _ _ _ _ | Call _ _ _ => 3
  | _ => 2
  end.

(** The frames held at the deepest point of the traversal of [n]: its
    own, and those of its deepest child or, without children, the one of
    [iter_fields]. *)
Fixpoint frames (n : node) : nat :=
  let option_frames (o : option node) : nat :=
    match o with
    | Some c => frames c
    | None => 0
    end in
  own_frames n
  + Nat.max 1
      match n with
      | Module b => list_max (map frames b)
      | FunctionDef _ _ a b d r tp
      | AsyncFunctionDef _ _ a b d r tp =>
          list_max [frames a; list_max (map frames b);
                    list_max (map frames d); option_frames r;
                    list_max (map frames tp)]
      | ClassDef _ bs ks b d tp =>
          list_max [list_max (map frames bs); list_max (map frames ks);
                    list_max (map frames b); list_max (map frames d);
                    list_max (map frames tp)]
      | Lambda a b => Nat.max (frames a) (frames b)
      | arguments p a v k kd kw df =>
          list_max [list_max (map frames p); list_max (map frames a);
                    option_frames v; list_max (map frames k);
                    list_max (map option_frames kd); option_frames kw;
                    list_max (map frames df)]
      | Expr v => frames v
      | Call f a k =>
          list_max [frames f; list_max (map frames a);
                    list_max (map frames k)]
      | Name _ => 3
      | Attribute v _ => Nat.max (frames v) 3
      | Other l => list_max (map frames l)
      end.

(** The traversal of [tree] that [analyze_file] starts stays within the
    recursion limit. *)
Definition traversed (tree : node) : bool :=
  (frames tree <=? available_frames)%nat.

Definition is_FunctionDef (n : node) : bool :=
  match n with
  | FunctionDef _ _ _ _ _ _ _ => true
  | _ => false
  end.

Definition is_Call (n : node) : bool :=
  match n with
  | Call _ _ _ => true
  | _ => false
  end.

(** [n] is a [def] statement for the name [k]. *)
Definition defines (k : string) (n : node) : bool :=
  match n with
  | FunctionDef k' _ _ _ _ _ _ => String.eqb k k'
  | _ => false
  end.

Definition def_lineno (n : node) : Z :=
  match n with
  | FunctionDef _ l _ _ _ _ _ => l
  | _ => 0%Z
  end.

(** Some [def] statement occurs among the nodes [l]. *)
Definition has_def (l : list node) : bool := existsb is_FunctionDef l.

(** The name a call node contributes: the one [_get_call_name] finds, when
    it is not the empty string. *)
Definition call_name (n : node) : option string :=
  match n with
  | Call func _ _ =>
      if truthy (_get_call_name func) then _get_call_name func else None
  | _ => None
  end.

(** The names of the calls met in [l] before the first [def] statement. *)
Fixpoint calls_before_def (l : list node) : list string :=
  match l with
  | [] => []
  | n :: r =>
      if is_FunctionDef n then []
      else match call_name n with
           | Some c => c :: calls_before_def r
           | None => calls_before_def r
           end
  end.

(** The last [def] statement for [k] in [l]. *)
Fixpoint last_def (k : string) (l : list node) : option node :=
  match l with
  | [] => None
  | n :: r =>
      match last_def k r with
      | Some d => Some d
      | None => if defines k n then Some n else None
      end
  end.

(** The calls a definition named [k] collects by itself: those met in its
    own node before any nested [def] statement. *)
Definition own_calls (k : string) (d : node) : list string :=
  if truthy (Some k) then calls_before_def (descendants d) else [].

(** The record that a [def] statement for [k] in the file [path] leaves. *)
Definition def_record (path k : string) (d : node) : func_info :=
  {| name := k; file := basename path; line := def_lineno d;
     calls := own_calls k d |}.

(** The active function is a key of [functions]. *)
Definition active_known (self : analyzer) : Prop :=
  forall a, current_function self = Some a ->
            Dict.mem a (functions self) = true.

Definition add_calls (cs : list string) (info : func_info) : func_info :=
  {| name := name info; file := file info; line := line info;
     calls := calls info ++ cs |}.

(** Two files that the report cannot tell apart: same base name, same
    tree, or both unreadable. *)
Definition same_source (f g : source_file) : Prop :=
  basename (path f) = basename (path g) /\
  match content f, content g with
  | Parsed t, Parsed u => t = u
  | Failed _, Failed _ => True
  | _, _ => False
  end.

(** The diagnostic [analyze_file] prints for a file that fails with
    [message]. *)
Definition diagnostic (f : source_file) (message : string) : string :=
  ("Error analyzing " ++ path f ++ ": " ++ message)%string.

(** Calls met in the state [self] are appended to the record of [k]. *)
Definition appending_to (k : string) (self : analyzer) : bool :=
  truthy (current_function self) &&
  match current_function self with
  | Some a => String.eqb a k
  | None => false
  end.

(** The record of [k] once the nodes [l], listed in pre-order, have been
    traversed from [self]: that of the last [def] statement for [k] among
    them, or else the record [self] had, extended by the calls met while
    [k] was still the active function. *)
Definition record_after (k : string) (l : list node) (self : analyzer)
  : option func_info :=
  match last_def k l with
  | Some d => Some (def_record (file_path self) k d)
  | None =>
      if appending_to k self
      then option_map (add_calls (calls_before_def l))
             (Dict.get k (functions self))
      else Dict.get k (functions self)
  end.

(** The names of all the calls in [l]. *)
Definition call_names (l : list node) : list string :=
  flat_map (fun n => match call_name n with Some c => [c] | None => [] end) l.

(** The relationships of a registry, written out: for each record in the
    order of the registry, one entry per element of its calls, in the
    order of the calls, with the key as caller and the file of the
    record. *)
Definition expected_relationships (registry : Dict.t func_info)
  : list relationship :=
  flat_map
    (fun item =>
       map (fun c => {| caller := fst item; callee := c;
                        caller_file := file (snd item) |})
         (calls (snd item)))
    registry.

(** The same analyzer, working on the file [p]. *)
Definition with_path (p : string) (self : analyzer) : analyzer :=
  {| file_path := p; functions := functions self;
     current_function := current_function self |}.

(** ** Programs of the specification's examples *)

(** An empty parameter list. *)
Definition no_arguments : node := arguments [] [] None [] [] None [].

(** The statement [f()]. *)
Definition call_statement (f : string) : node := Expr (Call (Name f) [] []).

(** The statement [c.d()]. *)
Definition method_call_statement (c d : string) : node :=
  Expr (Call (Attribute (Name c) d) [] []).

(** [def o(): x(); def i(): y(); z()], with [i] nested in [o]. *)
Definition nested_example (o i x y z : string) (lo li : Z) : node :=
  Module
    [FunctionDef o lo no_arguments
       [call_statement x;
        FunctionDef i li no_arguments [call_statement y] [] None [];
        call_statement z]
       [] None []].

(** [def a(): b(); c.d()] *)
Definition two_calls_example (a b c d : string) (la : Z) : node :=
  Module
    [FunctionDef a la no_arguments
       [call_statement b; method_call_statement c d] [] None []].

(** [@deco(arg)] on [def f(): def inner(): pass]. *)
Definition decorated_example : node :=
  Module
    [FunctionDef "f" 2 no_arguments
       [FunctionDef "inner" 3 no_arguments [] [] None []]
       [Call (Name "deco") [Name "arg"] []] None []].

(** [def f(x=g()): def f(): pass]: the nested function has the name of
    the enclosing one. *)
Definition shadowed_default_example : node :=
  Module
    [FunctionDef "f" 1
       (arguments [] [Other []] None [] [] None [Call (Name "g") [] []])
       [FunctionDef "f" 2 no_arguments [Other []] [] None []]
       [] None []].



(** The expression [a.a. ... .a]: an attribute of an attribute and so on,
    [depth] times. *)
Definition attribute_chain (depth : nat) : node :=
  Nat.iter depth (fun value => Attribute value "a") (Name "a").

(** [def f(): g(); a.a. ... .a], the chain 600 attributes long: a file
    that parses and whose tree is deeper than the stack. *)
Definition deep_example : node :=
  Module
    [FunctionDef "f" 1 no_arguments
       [call_statement "g"; Expr (attribute_chain 600)] [] None []].

(** [@a(b())] on [def f(p=[g()], *, x=h()): pass]. *)
Definition defaults_example_params : node :=
  arguments [] [Other []] None [Other []] [Some (Call (Name "h") [] [])]
    None [Other [Call (Name "g") [] []]].

Definition defaults_example : node :=
  FunctionDef "f" 2 defaults_example_params [Other []]
    [Call (Name "a") [Call (Name "b") [] []] []] None [].

(** The two files of the end-to-end scenario: [a.py] defines [foo], which
    calls [bar]; [b.py] defines [bar] and then [foo], which call nothing. *)
Definition scenario_a : source_file :=
  {| path := "repo/a.py";
     content :=
       Parsed
         (Module
            [FunctionDef "foo" 1 no_arguments [call_statement "bar"]
               [] None []]) |}.

Definition scenario_b_tree : node :=
  Module
    [FunctionDef "bar" 1 no_arguments [Other []] [] None [];
     FunctionDef "foo" 4 no_arguments [Other []] [] None []].

Definition scenario_b : source_file :=
  {| path := "repo/b.py"; content := Parsed scenario_b_tree |}.



(** [first.py] defines [first], [foo] and [last], which call [x], [bar]
    and [y]; [second.py] defines [fresh], which calls [z], and then [foo],
    which calls [baz] and [qux]. *)
Definition scenario_first : source_file :=
  {| path := "repo/first.py";
     content :=
       Parsed
         (Module
            [FunctionDef "first" 1 no_arguments [call_statement "x"]
               [] None [];
             FunctionDef "foo" 3 no_arguments [call_statement "bar"]
               [] None [];
             FunctionDef "last" 5 no_arguments [call_statement "y"]
               [] None []]) |}.

Definition scenario_second : source_file :=
  {| path := "repo/second.py";
     content :=
       Parsed
         (Module
            [FunctionDef "fresh" 1 no_arguments [call_statement "z"]
               [] None [];
             FunctionDef "foo" 3 no_arguments
               [call_statement "baz"; call_statement "qux"] [] None []]) |}.

(** A repository with a file that parses and one that does not, cloned
    into the directory [dir]. *)
Definition cloned_into (dir : string) : list source_file :=
  [{| path := (dir ++ "/pkg/m.py")%string;
      content := Parsed (nested_example "outer" "inner" "x" "y" "z" 1 3) |};
   {| path := (dir ++ "/bad.py")%string;
      content :=
        Failed ("invalid syntax (" ++ dir ++ "/bad.py, line 1)")%string |}].

(** The lines the loop of [generate_call_graph] prints for one file. *)
Definition printed_for (f : source_file) : list string :=
  ("Analyzing: " ++ basename (path f))%string :: snd (analyze_file f).

(** The registry after one more file. *)
Definition merge_file (all_functions : Dict.t func_info) (f : source_file)
  : Dict.t func_info :=
  Dict.update all_functions (fst (analyze_file f)).

(** ** Finding the files

    The directory that [clone_repo] returns, as [os.walk] sees it: a
    directory lists its entries by name, in the order of the listing; an
    entry is a directory or anything else.  A regular file carries what
    reading and parsing it gives.  (A link to a directory, which [os.walk]
    lists and does not enter, and a directory that cannot be listed, behave
    here as an empty directory.) *)

Local Unset Elimination Schemes.

Inductive fs_node : Type :=
| RegularFile (content : parse_result)
| Directory (entries : list (string * fs_node)).

Local Set Elimination Schemes.

(** [s.startswith(prefix)] and [s.endswith(suffix)] *)
Definition startswith (s prefix : string) : bool := String.prefix prefix s.

Fixpoint endswith (s suffix : string) : bool :=
  String.eqb s suffix ||
  match s with
  | EmptyString => false
  | String _ r => endswith r suffix
  end.

(** [posixpath.join] of two components. *)
Definition join (a b : string) : string :=
  if startswith b "/" then b
  else if String.eqb a "" || endswith a "/" then (a ++ b)%string
  else (a ++ "/" ++ b)%string.

Definition is_dir (e : string * fs_node) : bool :=
  match snd e with
  | Directory _ => true
  | RegularFile _ => false
  end.

Definition dirnames (entries : list (string * fs_node)) : list string :=
  map fst (filter is_dir entries).

Definition filenames (entries : list (string * fs_node)) : list string :=
  map fst (filter (fun e => negb (is_dir e)) entries).

(** [os.walk(top)], top-down: the triple of a directory, then the walks
    of its subdirectories in the order of the listing.  The caller prunes
    the list of subdirectories in place before the walk goes on; [descend]
    tells which names it keeps. *)
Fixpoint walk (descend : string -> bool) (top : string) (fs : fs_node)
  {struct fs} : list (string * list string * list string) :=
  match fs with
  | RegularFile _ => []
  | Directory entries =>
      (top, dirnames entries, filenames entries)
      :: flat_map
           (fun e =>
              match e with
              | (name, sub) =>
                  if is_dir e && descend name
                  then walk descend (join top name) sub
                  else []
              end)
           entries
  end.

(** [find_python_files] *)
Definition find_python_files (directory : string) (fs : fs_node)
  : list string :=
  flat_map
    (fun triple =>
       match triple with
       | (root, _, files) =>
           map (join root) (filter (fun file => endswith file ".py") files)
       end)
    (walk (fun d => negb (startswith d ".")) directory fs).

(** The paths that [find_python_files] returns, each with what
    [analyze_file] gets when it opens and parses the file at this path:
    the files of the loop of [generate_call_graph]. *)
Fixpoint python_sources (directory : string) (fs : fs_node) {struct fs}
  : list source_file :=
  match fs with
  | RegularFile _ => []
  | Directory entries =>
      flat_map
        (fun e =>
           match e with
           | (name, RegularFile c) =>
               if endswith name ".py"
               then [{| path := join directory name; content := c |}]
               else []
           | (_, Directory _) => []
           end)
        entries
      ++ flat_map
           (fun e =>
              match e with
              | (name, sub) =>
                  if is_dir e && negb (startswith name ".")
                  then python_sources (join directory name) sub
                  else []
              end)
           entries
  end.

(** The file at [p] is a [.py] file of the tree, reached from [top]
    through directories whose names do not start with a dot. *)
Inductive found_in : string -> fs_node -> string -> Prop :=
| found_here (top : string) (entries : list (string * fs_node))
    (name : string) (c : parse_result) :
    In (name, RegularFile c) entries ->
    endswith name ".py" = true ->
    found_in top (Directory entries) (join top name)
| found_below (top : string) (entries : list (string * fs_node))
    (name : string) (sub : fs_node) (p : string) :
    In (name, sub) entries ->
    startswith name "." = false ->
    found_in (join top name) sub p ->
    found_in top (Directory entries) p.

(** The tree without its directories whose names start with a dot. *)
Fixpoint prune_hidden (fs : fs_node) : fs_node :=
  match fs with
  | RegularFile c => RegularFile c
  | Directory entries =>
      Directory
        (flat_map
           (fun e =>
              match e with
              | (name, RegularFile c) => [(name, RegularFile c)]
              | (name, Directory _ as sub) =>
                  if startswith name "." then []
                  else [(name, prune_hidden sub)]
              end)
           entries)
  end.

(** No name in a listing holds a ['/']. *)
Fixpoint plain_names (fs : fs_node) : bool :=
  match fs with
  | RegularFile _ => true
  | Directory entries =>
      forallb
        (fun e =>
           match e with
           | (name, sub) => negb (has_sep name) && plain_names sub
           end)
        entries
  end.

Fixpoint fs_size (fs : fs_node) : nat :=
  match fs with
  | RegularFile _ => 0
  | Directory entries =>
      S (list_sum
           (map (fun e => match e with (_, sub) => fs_size sub end) entries))
  end.

(** A clone: [a.py] and a directory [pkg] with [b.py] and a file that does
    not parse, beside notes and a hidden directory. *)
Definition example_clone : fs_node :=
  Directory
    [("NOTES.txt", RegularFile (Failed "not read"));
     ("a.py", RegularFile (content scenario_a));
     (".git",
      Directory [("hook.py", RegularFile (Parsed (two_calls_example
                                                     "h" "b" "c" "d" 1)))]);
     ("pkg",
      Directory [("b.py", RegularFile (content scenario_b));
                 ("bad.py", RegularFile (Failed "invalid syntax"))])].

(** ** The registry, said without the traversal *)

(** The names of the [def] statements among [l], in the order of [l]. *)
Definition def_names (l : list node) : list string :=
  flat_map
    (fun n =>
       match n with
       | FunctionDef k _ _ _ _ _ _ => [k]
       | _ => []
       end)
    l.

(** [l] without the repetitions of a name after its first occurrence. *)
Fixpoint first_occurrences (l : list string) : list string :=
  match l with
  | [] => []
  | x :: r =>
      x :: filter (fun y => negb (String.eqb y x)) (first_occurrences r)
  end.

(** The keys of a dictionary after an assignment to [k], and after
    assignments to [names] in turn. *)
Definition add_key (ks : list string) (k : string) : list string :=
  if existsb (String.eqb k) ks then ks else ks ++ [k].

Definition add_keys (ks names : list string) : list string :=
  fold_left add_key names ks.

(** The analysis of the file completes: it is read and parsed, and the
    traversal of its tree stays within the recursion limit. *)
Definition analyzed (f : source_file) : bool :=
  match content f with
  | Parsed tree => traversed tree
  | Failed _ => false
  end.

(** The names of the [def] statements of a file, in pre-order; none when
    the analysis of the file does not complete. *)
Definition file_def_names (f : source_file) : list string :=
  match content f with
  | Parsed tree => if traversed tree then def_names (subnodes tree) else []
  | Failed _ => []
  end.

(** The record of the last [def] statement for [k] in the file; none when
    the analysis of the file does not complete. *)
Definition file_record (k : string) (f : source_file) : option func_info :=
  match content f with
  | Parsed tree =>
      if traversed tree
      then option_map (def_record (path f) k) (last_def k (subnodes tree))
      else None
  | Failed _ => None
  end.

(** The record of [k] in the last of the files that has one. *)
Fixpoint last_file_record (k : string) (files : list source_file)
  : option func_info :=
  match files with
  | [] => None
  | f :: r =>
      match last_file_record k r with
      | Some info => Some info
      | None => file_record k f
      end
  end.

(** ** Facts about the helpers *)

Lemma bind_Ok {A B : Type} (m : result A) (k : A -> result B) (b : B) :
  bind m k = Ok b -> exists a, m = Ok a /\ k a = Ok b.
Proof.
  destruct m as [a|e]; simpl; intros H; [eauto | discriminate].
Qed.

Lemma for_each_app {A S : Type} (f : A -> S -> result S) (l1 l2 : list A)
  (s : S) :
  for_each f (l1 ++ l2) s = (s' <- for_each f l1 s ;; for_each f l2 s').
Proof.
  revert s; induction l1 as [|x l1 IH]; intros s; simpl; [reflexivity|].
  destruct (f x s); simpl; auto.
Qed.


Lemma for_each_option_nodes {S : Type} (f : node -> S -> result S)
  (o : option node) (s : S) :
  for_each f (option_nodes o) s = visit_option f o s.
Proof.
  destruct o as [c|]; simpl; [destruct (f c s)|]; reflexivity.
Qed.

Lemma for_each_flat_option {S : Type} (f : node -> S -> result S)
  (l : list (option node)) (s : S) :
  for_each f (flat_map option_nodes l) s = for_each (visit_option f) l s.
Proof.
  revert s; induction l as [|o l IH]; intros s; simpl; [reflexivity|].
  rewrite for_each_app, for_each_option_nodes.
  destruct (visit_option f o s); simpl; auto.
Qed.

Lemma bind_ext {A B : Type} (m : result A) (k1 k2 : A -> result B) :
  (forall a, k1 a = k2 a) -> bind m k1 = bind m k2.
Proof. intros H; destruct m; simpl; auto. Qed.

Lemma bind_congr {A B : Type} (m1 m2 : result A) (k : A -> result B) :
  m1 = m2 -> bind m1 k = bind m2 k.
Proof. intros ->; reflexivity. Qed.

(** [visit] dispatches on the class of the node. *)
Lemma visit_eq (depth : nat) (n : node) (self : analyzer) :
  visit depth n self =
  with_frame depth (fun depth =>
    match n with
    | FunctionDef func_name lineno _ _ _ _ _ =>
        with_frame depth (fun depth =>
          self <- generic_visit depth n
                    (enter_function func_name lineno self) ;;
          Ok (set_current_function None self))
    | Call func _ _ =>
        with_frame depth (fun depth =>
          self <- record_call func self ;;
          generic_visit depth n self)
    | _ => generic_visit depth n self
    end).
Proof.
  destruct depth as [|depth]; [destruct n; reflexivity|].
  destruct n; cbn [visit with_frame];
    unfold generic_visit, visit_FunctionDef, visit_Call;
    (destruct depth as [|depth]; [reflexivity|]); cbn [with_frame];
    try (destruct depth as [|depth]; [reflexivity|]; cbn [with_frame]);
    simpl;
    try apply bind_congr;
    repeat first
      [ reflexivity
      | apply bind_ext; intros ?
      | rewrite for_each_app
      | rewrite for_each_option_nodes
      | rewrite for_each_flat_option
      | match goal with
        | |- context [match ?m with Ok _ => _ | Raise _ => _ end] =>
            destruct m; simpl
        end ].
Qed.

(** ** Induction over syntax trees *)

Lemma flat_map_option_nodes (o : option node) :
  flat_map subnodes (option_nodes o)
  = match o with Some c => subnodes c | None => [] end.
Proof. destruct o; simpl; [apply app_nil_r | reflexivity]. Qed.

Lemma flat_map_flat_option (l : list (option node)) :
  flat_map subnodes (flat_map option_nodes l)
  = flat_map (fun o => match o with Some c => subnodes c | None => [] end) l.
Proof.
  induction l as [|o l IH]; simpl; [reflexivity|].
  rewrite flat_map_app, flat_map_option_nodes, IH; reflexivity.
Qed.

(** [subnodes] is the pre-order listing. *)
Lemma subnodes_eq (n : node) : subnodes n = n :: descendants n.
Proof.
  unfold descendants;
    destruct n; simpl; f_equal;
    rewrite ?flat_map_app, ?flat_map_option_nodes, ?flat_map_flat_option;
    simpl; rewrite ?app_nil_r; reflexivity.
Qed.

Lemma subnodes_child_length (c : node) (l : list node) :
  In c l -> List.length (subnodes c) <= List.length (flat_map subnodes l).
Proof.
  induction l as [|x l IH]; simpl; [tauto|].
  rewrite List.length_app; intros [->|H]; [lia | apply IH in H; lia].
Qed.

(** A property holds of every node when it passes from the children of a
    node to the node. *)
Lemma node_children_ind (P : node -> Prop) :
  (forall n, Forall P (children n) -> P n) -> forall n, P n.
Proof.
  intros step.
  assert (H : forall m n, List.length (subnodes n) < m -> P n).
  { induction m as [|m IH]; intros n Hn; [lia|].
    apply step, Forall_forall; intros c Hc; apply IH.
    rewrite subnodes_eq in Hn; simpl in Hn.
    apply subnodes_child_length in Hc; unfold descendants in Hn; lia. }
  intros n; apply (H (S (List.length (subnodes n)))); lia.
Qed.

(** Induction over a successful traversal: [P] relates the analyzer before
    and after a node, [Q] before and after a list of nodes. *)
Section VisitInduction.
Variable P : node -> analyzer -> analyzer -> Prop.
Variable Q : list node -> analyzer -> analyzer -> Prop.

Hypothesis Q_nil : forall s, Q [] s s.
Hypothesis Q_cons : forall depth n l s s1 s2,
  visit depth n s = Ok s1 -> for_each (visit depth) l s1 = Ok s2 ->
  P n s s1 -> Q l s1 s2 -> Q (n :: l) s s2.
Hypothesis P_def : forall depth k ln a b d r tp s s',
  generic_visit depth (FunctionDef k ln a b d r tp) (enter_function k ln s)
    = Ok s' ->
  Q (children (FunctionDef k ln a b d r tp)) (enter_function k ln s) s' ->
  P (FunctionDef k ln a b d r tp) s (set_current_function None s').
Hypothesis P_call : forall depth f a k s s1 s',
  record_call f s = Ok s1 ->
  generic_visit depth (Call f a k) s1 = Ok s' ->
  Q (children (Call f a k)) s1 s' ->
  P (Call f a k) s s'.
Hypothesis P_other : forall depth n s s',
  is_FunctionDef n = false -> is_Call n = false ->
  generic_visit depth n s = Ok s' ->
  Q (children n) s s' ->
  P n s s'.

Lemma for_each_visit_ind_aux (l : list node) :
  Forall (fun n => forall depth s s', visit depth n s = Ok s' -> P n s s') l ->
  forall depth s s', for_each (visit depth) l s = Ok s' -> Q l s s'.
Proof.
  induction 1 as [|n l Hn _ IH]; intros depth s s' H; simpl in H.
  - injection H as <-; apply Q_nil.
  - destruct (visit depth n s) as [s1|e] eqn:E; [|discriminate].
    eapply Q_cons; eauto.
Qed.

(** [generic_visit] with at least two frames left: one for itself, one
    for [iter_fields] while it runs. *)
Lemma generic_visit_eq (depth : nat) (n : node) (s : analyzer) :
  generic_visit depth n s
  = match depth with
    | S (S d) => for_each (visit (S d)) (children n) s
    | _ => Raise RecursionError
    end.
Proof. destruct depth as [|[|d]]; reflexivity. Qed.

Lemma generic_visit_Ok (depth : nat) (n : node) (s s' : analyzer) :
  generic_visit depth n s = Ok s' ->
  exists d, depth = S (S d) /\ for_each (visit (S d)) (children n) s = Ok s'.
Proof.
  rewrite generic_visit_eq; destruct depth as [|[|d]];
    [discriminate | discriminate | eauto].
Qed.

Lemma visit_ind (n : node) :
  forall depth s s', visit depth n s = Ok s' -> P n s s'.
Proof.
  induction n as [n IH] using node_children_ind.
  intros depth s s' H; rewrite visit_eq in H.
  pose proof (for_each_visit_ind_aux _ IH) as HQ.
  destruct depth as [|depth]; [discriminate|]; cbn [with_frame] in H.
  assert (HG : forall depth s s', generic_visit depth n s = Ok s' ->
                                  Q (children n) s s').
  { intros d t t' Ht; apply generic_visit_Ok in Ht as (d' & _ & Ht); eauto. }
  destruct n;
    try (eapply P_other; eauto; fail).
  - destruct depth as [|depth]; [discriminate|]; cbn [with_frame] in H.
    apply bind_Ok in H as (s1 & H1 & H2); injection H2 as <-.
    eapply P_def; eauto.
  - destruct depth as [|depth]; [discriminate|]; cbn [with_frame] in H.
    apply bind_Ok in H as (s1 & H1 & H2).
    eapply P_call; eauto.
Qed.

Lemma for_each_visit_ind (l : list node) :
  forall depth s s', for_each (visit depth) l s = Ok s' -> Q l s s'.
Proof.
  apply for_each_visit_ind_aux, Forall_forall; intros n _; apply visit_ind.
Qed.
End VisitInduction.

(** ** Dictionaries *)

Module DictFacts.
Section DictFacts.
Context {V : Type}.
Implicit Types (d : Dict.t V) (k : string) (v : V).

Lemma get_set_same k v d : Dict.get k (Dict.set k v d) = Some v.
Proof.
  induction d as [|[k' v'] d IH]; simpl.
  - rewrite String.eqb_refl; reflexivity.
  - destruct (String.eqb k k') eqn:E; simpl; rewrite E; auto.
Qed.

Lemma get_set_other k k' v d :
  k <> k' -> Dict.get k (Dict.set k' v d) = Dict.get k d.
Proof.
  intros Hk; induction d as [|[k2 v2] d IH]; simpl.
  - apply String.eqb_neq in Hk; rewrite Hk; reflexivity.
  - destruct (String.eqb k' k2) eqn:E; simpl.
    + apply String.eqb_eq in E; subst k2.
      apply String.eqb_neq in Hk; rewrite Hk; reflexivity.
    + rewrite IH; reflexivity.
Qed.

Lemma get_set k k' v d :
  Dict.get k (Dict.set k' v d)
  = if String.eqb k k' then Some v else Dict.get k d.
Proof.
  destruct (String.eqb k k') eqn:E.
  - apply String.eqb_eq in E; subst; apply get_set_same.
  - apply String.eqb_neq in E; apply get_set_other; assumption.
Qed.

Lemma mem_In k d : Dict.mem k d = true <-> In k (Dict.keys d).
Proof.
  unfold Dict.mem; induction d as [|[k' v'] d IH]; simpl.
  - split; [discriminate | tauto].
  - destruct (String.eqb k k') eqn:E.
    + apply String.eqb_eq in E; subst; tauto.
    + apply String.eqb_neq in E; rewrite IH; split; [tauto|].
      intros [H|H]; [congruence | assumption].
Qed.

Lemma mem_false k d : Dict.mem k d = false <-> ~ In k (Dict.keys d).
Proof.
  rewrite <- mem_In; destruct (Dict.mem k d); split; congruence.
Qed.

Lemma get_In k v d : Dict.get k d = Some v -> In (k, v) d.
Proof.
  induction d as [|[k' v'] d IH]; simpl; [discriminate|].
  destruct (String.eqb k k') eqn:E; [|auto].
  apply String.eqb_eq in E; subst; intros [= ->]; auto.
Qed.

Lemma In_get k v d :
  NoDup (Dict.keys d) -> In (k, v) d -> Dict.get k d = Some v.
Proof.
  induction d as [|[k' v'] d IH]; simpl; [tauto|].
  intros Hnd [H|H]; inversion Hnd; subst.
  - injection H as -> ->; rewrite String.eqb_refl; reflexivity.
  - destruct (String.eqb k k') eqn:E; [|auto].
    apply String.eqb_eq in E; subst k'.
    exfalso; apply H2; apply (in_map fst) in H; exact H.
Qed.

(** Assigning to a key that is present keeps every key where it is. *)
Lemma keys_set_present k v d :
  Dict.mem k d = true -> Dict.keys (Dict.set k v d) = Dict.keys d.
Proof.
  unfold Dict.mem; induction d as [|[k' v'] d IH]; simpl; [discriminate|].
  destruct (String.eqb k k') eqn:E; simpl; [reflexivity|].
  intros H; rewrite IH; auto.
Qed.

(** Assigning to a new key puts it last. *)
Lemma keys_set_absent k v d :
  Dict.mem k d = false -> Dict.keys (Dict.set k v d) = Dict.keys d ++ [k].
Proof.
  unfold Dict.mem; induction d as [|[k' v'] d IH]; simpl; [reflexivity|].
  destruct (String.eqb k k') eqn:E; simpl; [discriminate|].
  intros H; rewrite IH; auto.
Qed.

Lemma keys_set k v d :
  Dict.keys (Dict.set k v d)
  = Dict.keys d ++ (if Dict.mem k d then [] else [k]).
Proof.
  destruct (Dict.mem k d) eqn:E.
  - rewrite keys_set_present, app_nil_r; auto.
  - apply keys_set_absent; assumption.
Qed.

Lemma NoDup_set k v d :
  NoDup (Dict.keys d) -> NoDup (Dict.keys (Dict.set k v d)).
Proof.
  intros H; rewrite keys_set; destruct (Dict.mem k d) eqn:E.
  - rewrite app_nil_r; assumption.
  - apply mem_false in E.
    apply NoDup_app; [assumption | repeat constructor; simpl; tauto |].
    intros x Hx [<-|[]]; auto.
Qed.

Lemma mem_set k k' v d :
  Dict.mem k (Dict.set k' v d) = String.eqb k k' || Dict.mem k d.
Proof.
  unfold Dict.mem; rewrite get_set; destruct (String.eqb k k'); reflexivity.
Qed.


Lemma update_cons d k v o :
  Dict.update d ((k, v) :: o) = Dict.update (Dict.set k v d) o.
Proof. reflexivity. Qed.

Lemma NoDup_update d o :
  NoDup (Dict.keys d) -> NoDup (Dict.keys (Dict.update d o)).
Proof.
  revert d; induction o as [|[k v] o IH]; intros d H; [assumption|].
  rewrite update_cons; apply IH, NoDup_set, H.
Qed.

(** After [d.update(o)] a key of [o] holds the value of [o], every other
    key the value it had. *)
Lemma get_update k d o :
  NoDup (Dict.keys o) ->
  Dict.get k (Dict.update d o)
  = match Dict.get k o with
    | Some v => Some v
    | None => Dict.get k d
    end.
Proof.
  revert d; induction o as [|[k' v'] o IH]; intros d H; [reflexivity|].
  inversion H as [|? ? Hk' Ho]; subst.
  rewrite update_cons, IH, get_set by assumption; simpl.
  destruct (String.eqb k k') eqn:E'; [|reflexivity].
  destruct (Dict.get k o) as [v|] eqn:E; [|reflexivity].
  apply String.eqb_eq in E'; subst k'.
  exfalso; apply Hk'; apply get_In in E; apply (in_map fst) in E; exact E.
Qed.

(** The keys after [d.update(o)]: those of [d] where they were, then the
    new ones in the order of [o]. *)
Lemma keys_update d o :
  NoDup (Dict.keys o) ->
  Dict.keys (Dict.update d o)
  = Dict.keys d
      ++ filter (fun k => negb (Dict.mem k d)) (Dict.keys o).
Proof.
  revert d; induction o as [|[k v] o IH]; intros d H.
  - simpl; rewrite app_nil_r; reflexivity.
  - inversion H as [|? ? Hk Ho]; subst.
    rewrite update_cons, IH, keys_set by assumption.
    rewrite <- app_assoc; f_equal; simpl.
    assert (Hf : forall x, In x (Dict.keys o) ->
              negb (Dict.mem x (Dict.set k v d)) = negb (Dict.mem x d)).
    { intros x Hx; rewrite mem_set.
      destruct (String.eqb x k) eqn:E; [|reflexivity].
      apply String.eqb_eq in E; subst; contradiction. }
    rewrite (filter_ext_in _ _ _ Hf).
    destruct (Dict.mem k d); reflexivity.
Qed.
End DictFacts.
End DictFacts.

(** ** The steps of the visitor *)

Import DictFacts.

Lemma add_calls_nil (info : func_info) : add_calls [] info = info.
Proof.
  destruct info; unfold add_calls; simpl; rewrite app_nil_r; reflexivity.
Qed.

Lemma add_calls_app (cs1 cs2 : list string) (info : func_info) :
  add_calls cs2 (add_calls cs1 info) = add_calls (cs1 ++ cs2) info.
Proof. unfold add_calls; simpl; rewrite app_assoc; reflexivity. Qed.

Lemma option_map_add_calls_nil (o : option func_info) :
  option_map (add_calls []) o = o.
Proof. destruct o; simpl; [rewrite add_calls_nil|]; reflexivity. Qed.

Lemma option_map_add_calls_app (cs1 cs2 : list string) (o : option func_info) :
  option_map (add_calls cs2) (option_map (add_calls cs1) o)
  = option_map (add_calls (cs1 ++ cs2)) o.
Proof. destruct o; simpl; [rewrite add_calls_app|]; reflexivity. Qed.

Lemma truthy_Some (s : string) : truthy (Some s) = true <-> s <> "".
Proof.
  simpl; destruct (String.eqb s "") eqn:E; simpl.
  - apply String.eqb_eq in E; split; [discriminate | congruence].
  - apply String.eqb_neq in E; tauto.
Qed.

Lemma append_call_eq (key called : string) (self : analyzer) :
  append_call key called self
  = match Dict.get key (functions self) with
    | Some info =>
        Ok (set_functions
              (Dict.set key (add_calls [called] info) (functions self)) self)
    | None => Raise (KeyError key)
    end.
Proof. reflexivity. Qed.

(** What [visit_Call] does before it descends, case by case. *)
Lemma record_call_cases (func : node) (self : analyzer) :
  record_call func self
  = match current_function self, call_name (Call func [] []) with
    | Some cur, Some called =>
        if truthy (Some cur) then append_call cur called self else Ok self
    | _, _ => Ok self
    end.
Proof.
  unfold record_call, call_name.
  destruct (current_function self) as [cur|]; [|reflexivity].
  destruct (truthy (Some cur)); destruct (_get_call_name func) as [c|];
    try reflexivity; destruct (truthy (Some c)); reflexivity.
Qed.


Lemma record_call_frame (func : node) (s s1 : analyzer) :
  record_call func s = Ok s1 ->
  file_path s1 = file_path s /\
  current_function s1 = current_function s /\
  Dict.keys (functions s1) = Dict.keys (functions s).
Proof.
  rewrite record_call_cases.
  destruct (current_function s) as [cur|] eqn:Ec;
    [|intros [= <-]; auto].
  destruct (call_name (Call func [] [])) as [c|]; [|intros [= <-]; auto].
  destruct (truthy (Some cur)); [|intros [= <-]; auto].
  rewrite append_call_eq.
  destruct (Dict.get cur (functions s)) as [info|] eqn:Eg; [|discriminate].
  intros [= <-]; simpl; repeat split; auto.
  apply keys_set_present; unfold Dict.mem; rewrite Eg; reflexivity.
Qed.

Lemma record_call_get (func : node) (s s1 : analyzer) (k : string) :
  record_call func s = Ok s1 ->
  Dict.get k (functions s1)
  = if appending_to k s
    then option_map
           (add_calls (match call_name (Call func [] []) with
                       | Some c => [c]
                       | None => []
                       end))
           (Dict.get k (functions s))
    else Dict.get k (functions s).
Proof.
  rewrite record_call_cases; unfold appending_to.
  destruct (current_function s) as [cur|] eqn:Ec; [|intros [= <-]; auto].
  destruct (call_name (Call func [] [])) as [c|].
  - destruct (truthy (Some cur)) eqn:Et; [|intros [= <-]; auto].
    rewrite append_call_eq.
    destruct (Dict.get cur (functions s)) as [info|] eqn:Eg; [|discriminate].
    intros [= <-]; simpl; rewrite get_set.
    rewrite (String.eqb_sym k cur).
    destruct (String.eqb cur k) eqn:E; [|reflexivity].
    apply String.eqb_eq in E; subst k; rewrite Eg; reflexivity.
  - intros [= <-]; rewrite option_map_add_calls_nil.
    destruct (_ && _); reflexivity.
Qed.

Lemma record_call_ok (func : node) (s : analyzer) :
  active_known s -> exists s1, record_call func s = Ok s1.
Proof.
  intros H; rewrite record_call_cases.
  destruct (current_function s) as [cur|] eqn:Ec; [|eauto].
  destruct (call_name (Call func [] [])) as [c|]; [|eauto].
  destruct (truthy (Some cur)); [|eauto].
  rewrite append_call_eq; specialize (H cur Ec); unfold Dict.mem in H.
  destruct (Dict.get cur (functions s)); [eauto | discriminate].
Qed.

Lemma active_known_frame (s s1 : analyzer) :
  current_function s1 = current_function s ->
  Dict.keys (functions s1) = Dict.keys (functions s) ->
  active_known s -> active_known s1.
Proof.
  intros Hc Hk H a Ha; apply mem_In; rewrite Hk; apply mem_In, H; congruence.
Qed.

Lemma active_known_enter (k : string) (ln : Z) (s : analyzer) :
  active_known (enter_function k ln s).
Proof.
  intros a [= <-]; simpl; unfold Dict.mem; rewrite get_set_same; reflexivity.
Qed.

Lemma active_known_exit (s : analyzer) :
  active_known (set_current_function None s).
Proof. intros a; discriminate. Qed.

Lemma active_known_init (p : string) : active_known (init p).
Proof. intros a; discriminate. Qed.

(** ** The frames of a traversal *)

Lemma list_max_option_nodes (o : option node) :
  list_max (map frames (option_nodes o))
  = match o with Some c => frames c | None => 0 end.
Proof. destruct o; simpl; [apply Nat.max_0_r | reflexivity]. Qed.

Lemma list_max_flat_option (l : list (option node)) :
  list_max (map frames (flat_map option_nodes l))
  = list_max
      (map (fun o => match o with Some c => frames c | None => 0 end) l).
Proof.
  induction l as [|o l IH]; simpl; [reflexivity|].
  rewrite map_app, list_max_app, list_max_option_nodes, IH; reflexivity.
Qed.

(** The frames of a node are its own and those of its deepest child, or
    the one of [iter_fields]. *)
Lemma frames_eq (n : node) :
  frames n = own_frames n + Nat.max 1 (list_max (map frames (children n))).
Proof.
  assert (C : forall x l, list_max (x :: l) = Nat.max x (list_max l))
    by reflexivity.
  assert (N : list_max [] = 0) by reflexivity.
  destruct n; cbn [frames children map]; f_equal; f_equal;
    rewrite ?C, ?N, ?map_app, ?list_max_app, ?list_max_option_nodes,
      ?list_max_flat_option, ?Nat.max_0_r;
    reflexivity.
Qed.

Lemma own_frames_generic (n : node) :
  is_FunctionDef n = false -> is_Call n = false -> own_frames n = 2.
Proof. destruct n; simpl; congruence. Qed.

(** ** The traversal never raises a [KeyError] *)

Lemma for_each_visit_sound (l : list node) :
  Forall (fun n => forall depth s, active_known s ->
            match visit depth n s with
            | Ok s' => active_known s'
            | Raise e => e = RecursionError
            end) l ->
  forall depth s, active_known s ->
    match for_each (visit depth) l s with
    | Ok s' => active_known s'
    | Raise e => e = RecursionError
    end.
Proof.
  induction 1 as [|n l Hn _ IH]; intros depth s Hs; simpl; [exact Hs|].
  specialize (Hn depth s Hs); destruct (visit depth n s) as [s1|e];
    [apply IH, Hn | exact Hn].
Qed.

(** From a state in which the active function is a key, a traversal ends
    in such a state or raises [RecursionError]. *)
Lemma visit_sound (n : node) :
  forall depth s, active_known s ->
    match visit depth n s with
    | Ok s' => active_known s'
    | Raise e => e = RecursionError
    end.
Proof.
  induction n as [n IH] using node_children_ind.
  intros depth s Hs; rewrite visit_eq.
  pose proof (for_each_visit_sound _ IH) as HQ.
  destruct depth as [|depth]; [destruct n; reflexivity|]; cbn [with_frame].
  destruct n as [b|k ln a b d r tp|k ln a b d r tp|k bs ks b d tp|a b
                |pa ar va ko kd kw df|v|func a kw|id|v attr|l];
    try (rewrite generic_visit_eq; destruct depth as [|[|depth]];
         [reflexivity | reflexivity | apply HQ; assumption]).
  - destruct depth as [|depth]; [reflexivity|]; cbn [with_frame].
    rewrite generic_visit_eq; destruct depth as [|[|depth]];
      [reflexivity | reflexivity |].
    specialize (HQ (S depth) _ (active_known_enter k ln s)).
    destruct (for_each (visit (S depth)) _ (enter_function k ln s)); simpl;
      [apply active_known_exit | exact HQ].
  - destruct depth as [|depth]; [reflexivity|]; cbn [with_frame].
    destruct (record_call_ok func s Hs) as (s1 & E); rewrite E; simpl.
    apply record_call_frame in E as (_ & Hc & Hk).
    rewrite generic_visit_eq; destruct depth as [|[|depth]];
      [reflexivity | reflexivity |].
    apply HQ; eapply active_known_frame; eauto.
Qed.

Lemma visit_active (depth : nat) (n : node) (s s' : analyzer) :
  active_known s -> visit depth n s = Ok s' -> active_known s'.
Proof.
  intros Hs H; pose proof (visit_sound n depth s Hs) as H'.
  rewrite H in H'; exact H'.
Qed.

Lemma visit_Raise (depth : nat) (n : node) (s : analyzer) (e : exn) :
  active_known s -> visit depth n s = Raise e -> e = RecursionError.
Proof.
  intros Hs H; pose proof (visit_sound n depth s Hs) as H'.
  rewrite H in H'; exact H'.
Qed.

(** ** A traversal completes exactly when the stack suffices *)

Lemma for_each_visit_fits (l : list node) :
  Forall (fun n => forall depth s, frames n <= depth -> active_known s ->
            exists s', visit depth n s = Ok s') l ->
  forall depth s, list_max (map frames l) <= depth -> active_known s ->
    exists s', for_each (visit depth) l s = Ok s'.
Proof.
  induction 1 as [|n l Hn _ IH]; intros depth s Hd Hs; simpl; [eauto|].
  simpl in Hd.
  destruct (Hn depth s) as (s1 & E); [lia | exact Hs |].
  rewrite E; apply IH; [lia | exact (visit_active depth n s s1 Hs E)].
Qed.

Lemma visit_fits (n : node) :
  forall depth s, frames n <= depth -> active_known s ->
    exists s', visit depth n s = Ok s'.
Proof.
  induction n as [n IH] using node_children_ind.
  intros depth s Hd Hs; rewrite visit_eq.
  pose proof (for_each_visit_fits _ IH) as HQ.
  rewrite frames_eq in Hd.
  destruct n as [b|k ln a b d r tp|k ln a b d r tp|k bs ks b d tp|a b
                |pa ar va ko kd kw df|v|func a kw|id|v attr|l];
    cbn [own_frames] in Hd;
    (destruct depth as [|depth]; [lia|]); cbn [with_frame];
    try (rewrite generic_visit_eq; destruct depth as [|[|depth]];
         [lia | lia | apply HQ; [lia | assumption]]).
  - destruct depth as [|depth]; [lia|]; cbn [with_frame].
    rewrite generic_visit_eq; destruct depth as [|[|depth]]; [lia | lia |].
    destruct (HQ (S depth) (enter_function k ln s)) as (s' & ->);
      [lia | apply active_known_enter |].
    simpl; eauto.
  - destruct depth as [|depth]; [lia|]; cbn [with_frame].
    destruct (record_call_ok func s Hs) as (s1 & E); rewrite E; simpl.
    apply record_call_frame in E as (_ & Hc & Hk).
    rewrite generic_visit_eq; destruct depth as [|[|depth]]; [lia | lia |].
    apply HQ; [lia | eapply active_known_frame; eauto].
Qed.

Lemma for_each_visit_frames (l : list node) :
  Forall (fun n => forall depth s s', visit depth n s = Ok s' ->
                                      frames n <= depth) l ->
  forall depth s s', for_each (visit depth) l s = Ok s' ->
                     list_max (map frames l) <= depth.
Proof.
  induction 1 as [|n l Hn _ IH]; intros depth s s' H; simpl in *; [lia|].
  destruct (visit depth n s) as [s1|e] eqn:E; [|discriminate].
  apply Hn in E; apply IH in H; lia.
Qed.

Lemma visit_frames (n : node) :
  forall depth s s', visit depth n s = Ok s' -> frames n <= depth.
Proof.
  induction n as [n IH] using node_children_ind.
  intros depth s s' H; rewrite visit_eq in H.
  pose proof (for_each_visit_frames _ IH) as HQ.
  assert (HG : forall depth s s', generic_visit depth n s = Ok s' ->
                 1 + Nat.max 1 (list_max (map frames (children n)))
                 <= depth).
  { intros d t t' Ht; apply generic_visit_Ok in Ht as (d' & -> & Ht).
    apply HQ in Ht; lia. }
  rewrite frames_eq.
  destruct n as [b|k ln a b d r tp|k ln a b d r tp|k bs ks b d tp|a b
                |pa ar va ko kd kw df|v|func a kw|id|v attr|l];
    cbn [own_frames];
    (destruct depth as [|depth]; [discriminate|]); cbn [with_frame] in H;
    try (apply HG in H; lia).
  - destruct depth as [|depth]; [discriminate|]; cbn [with_frame] in H.
    apply bind_Ok in H as (s1 & H & _); apply HG in H; lia.
  - destruct depth as [|depth]; [discriminate|]; cbn [with_frame] in H.
    apply bind_Ok in H as (s1 & _ & H); apply HG in H; lia.
Qed.

(** More frames than needed change nothing. *)
Lemma for_each_visit_mono (l : list node) :
  Forall (fun n => forall d d' s s', visit d n s = Ok s' -> d <= d' ->
                                     visit d' n s = Ok s') l ->
  forall d d' s s', for_each (visit d) l s = Ok s' -> d <= d' ->
                    for_each (visit d') l s = Ok s'.
Proof.
  induction 1 as [|n l Hn _ IH]; intros d d' s s' H Hd; simpl in *;
    [exact H|].
  destruct (visit d n s) as [s1|e] eqn:E; [|discriminate].
  rewrite (Hn d d' s s1 E Hd); eauto.
Qed.

Lemma visit_mono (n : node) :
  forall d d' s s', visit d n s = Ok s' -> d <= d' -> visit d' n s = Ok s'.
Proof.
  induction n as [n IH] using node_children_ind.
  intros d d' s s' H Hd; rewrite visit_eq in *.
  pose proof (for_each_visit_mono _ IH) as HQ.
  assert (HG : forall d d' s s', generic_visit d n s = Ok s' -> d <= d' ->
                                 generic_visit d' n s = Ok s').
  { intros e e' t t' Ht He; apply generic_visit_Ok in Ht as (e0 & -> & Ht).
    rewrite generic_visit_eq; destruct e' as [|[|e']]; [lia | lia |].
    apply (HQ (S e0)); [exact Ht | lia]. }
  destruct n as [b|k ln a b dl r tp|k ln a b dl r tp|k bs ks b dl tp|a b
                |pa ar va ko kd kw df|v|func a kw|id|v attr|l];
    (destruct d as [|d]; [discriminate|]); cbn [with_frame] in H;
    (destruct d' as [|d']; [lia|]); cbn [with_frame];
    try (apply (HG d d'); [exact H | lia]).
  - destruct d as [|d]; [discriminate|]; cbn [with_frame] in H.
    destruct d' as [|d']; [lia|]; cbn [with_frame].
    apply bind_Ok in H as (s1 & H & E).
    rewrite (HG d d' _ _ H) by lia; exact E.
  - destruct d as [|d]; [discriminate|]; cbn [with_frame] in H.
    destruct d' as [|d']; [lia|]; cbn [with_frame].
    apply bind_Ok in H as (s1 & E & H); rewrite E; simpl.
    apply (HG d d'); [exact H | lia].
Qed.

(** The traversal of a tree from a state in which the active function is
    a key: it completes when the stack holds the frames of the tree, and
    raises [RecursionError] when it does not. *)
Lemma visit_cases (depth : nat) (n : node) (s : analyzer) :
  active_known s ->
  if (frames n <=? depth)%nat
  then exists s', visit depth n s = Ok s' /\ active_known s'
  else visit depth n s = Raise RecursionError.
Proof.
  intros Hs; destruct (Nat.leb_spec (frames n) depth) as [H|H].
  - destruct (visit_fits n depth s H Hs) as (s' & E).
    exists s'; split; [exact E | exact (visit_active depth n s s' Hs E)].
  - destruct (visit depth n s) as [s'|e] eqn:E.
    + apply visit_frames in E; lia.
    + rewrite (visit_Raise depth n s e Hs E); reflexivity.
Qed.

(** ** What a traversal leaves unchanged *)

Lemma visit_file_path (depth : nat) (n : node) (s s' : analyzer) :
  visit depth n s = Ok s' -> file_path s' = file_path s.
Proof.
  revert depth s s'.
  apply (visit_ind (fun _ s s' => file_path s' = file_path s)
           (fun _ s s' => file_path s' = file_path s)); auto.
  - intros; congruence.
  - intros _ f a k s s1 s' H _ ->; apply record_call_frame in H; tauto.
Qed.


Lemma visit_NoDup (depth : nat) (n : node) (s s' : analyzer) :
  visit depth n s = Ok s' ->
  NoDup (Dict.keys (functions s)) -> NoDup (Dict.keys (functions s')).
Proof.
  revert depth s s'.
  apply (visit_ind
           (fun _ s s' => NoDup (Dict.keys (functions s)) ->
                          NoDup (Dict.keys (functions s')))
           (fun _ s s' => NoDup (Dict.keys (functions s)) ->
                          NoDup (Dict.keys (functions s')))); auto.
  - intros _ k ln a b d r tp s s' _ H Hs; simpl; apply H; simpl.
    apply NoDup_set, Hs.
  - intros _ f a k s s1 s' H _ IH Hs; apply IH.
    apply record_call_frame in H as (_ & _ & ->); assumption.
Qed.

(** ** The pre-order listing and the state of the visitor *)

Lemma has_def_app (a b : list node) :
  has_def (a ++ b) = has_def a || has_def b.
Proof. apply existsb_app. Qed.

Lemma calls_before_def_app (a b : list node) :
  calls_before_def (a ++ b)
  = calls_before_def a ++ (if has_def a then [] else calls_before_def b).
Proof.
  induction a as [|n a IH]; simpl; [reflexivity|].
  destruct (is_FunctionDef n); simpl; [reflexivity|].
  destruct (call_name n); rewrite IH; reflexivity.
Qed.

Lemma last_def_app (k : string) (a b : list node) :
  last_def k (a ++ b)
  = match last_def k b with
    | Some d => Some d
    | None => last_def k a
    end.
Proof.
  induction a as [|n a IH]; simpl.
  - destruct (last_def k b); reflexivity.
  - rewrite IH; destruct (last_def k b); reflexivity.
Qed.

Lemma defines_is_FunctionDef (k : string) (n : node) :
  defines k n = true -> is_FunctionDef n = true.
Proof. destruct n; simpl; congruence. Qed.

Lemma last_def_Some (k : string) (l : list node) (d : node) :
  last_def k l = Some d -> defines k d = true /\ In d l.
Proof.
  induction l as [|n l IH]; simpl; [discriminate|].
  destruct (last_def k l) as [d'|].
  - intros [= <-]; destruct IH; auto.
  - destruct (defines k n) eqn:E; [|discriminate].
    intros [= <-]; auto.
Qed.


Lemma last_def_has_def (k : string) (l : list node) (d : node) :
  last_def k l = Some d -> has_def l = true.
Proof.
  intros H; apply last_def_Some in H as (Hd & Hin).
  apply existsb_exists; eauto using defines_is_FunctionDef.
Qed.

Lemma is_Call_call_name (n : node) : is_Call n = false -> call_name n = None.
Proof. destruct n; simpl; congruence. Qed.

Lemma is_FunctionDef_defines (k : string) (n : node) :
  is_FunctionDef n = false -> defines k n = false.
Proof. destruct n; simpl; congruence. Qed.

Lemma appending_to_current (k : string) (s s1 : analyzer) :
  current_function s1 = current_function s ->
  appending_to k s1 = appending_to k s.
Proof. unfold appending_to; intros ->; reflexivity. Qed.

Lemma appending_to_None (k : string) (s : analyzer) :
  current_function s = None -> appending_to k s = false.
Proof. unfold appending_to; intros ->; reflexivity. Qed.

(** After a traversal that met a [def] statement no function is active;
    otherwise the active function is the one there was. *)
Lemma visit_current (depth : nat) (n : node) (s s' : analyzer) :
  visit depth n s = Ok s' ->
  current_function s'
  = if has_def (subnodes n) then None else current_function s.
Proof.
  revert depth s s'; revert n.
  apply (visit_ind
           (fun n s s' => current_function s'
              = if has_def (subnodes n) then None else current_function s)
           (fun l s s' => current_function s'
              = if has_def (flat_map subnodes l) then None
                else current_function s)); auto.
  - intros _ n l s s1 s2 _ _ H1 H2; simpl; rewrite has_def_app, H2, H1.
    destruct (has_def (subnodes n)), (has_def (flat_map subnodes l));
      reflexivity.
  - intros _ f a k s s1 s' H _ IH; rewrite subnodes_eq; simpl.
    apply record_call_frame in H as (_ & <- & _); exact IH.
  - intros _ n s s' Hd _ _ IH; rewrite subnodes_eq; simpl; rewrite Hd;
      exact IH.
Qed.

(** The record of every name after a traversal, step by step. *)
Section RecordAfter.
Let P (n : node) (s s' : analyzer) : Prop :=
  forall k, Dict.get k (functions s') = record_after k (subnodes n) s.
Let Q (l : list node) (s s' : analyzer) : Prop :=
  forall k, Dict.get k (functions s')
            = record_after k (flat_map subnodes l) s.

Lemma record_after_nil (s : analyzer) : Q [] s s.
Proof.
  intros k; unfold record_after; simpl.
  rewrite option_map_add_calls_nil; destruct (appending_to k s); reflexivity.
Qed.

Lemma record_after_cons (depth : nat) (n : node) (l : list node)
  (s s1 s2 : analyzer) :
  visit depth n s = Ok s1 -> for_each (visit depth) l s1 = Ok s2 ->
  P n s s1 -> Q l s1 s2 -> Q (n :: l) s s2.
Proof.
  intros Hn _ Pn Ql k; simpl; rewrite Ql; unfold record_after.
  rewrite last_def_app, calls_before_def_app, (visit_file_path _ _ _ _ Hn).
  destruct (last_def k (flat_map subnodes l)); [reflexivity|].
  rewrite Pn; unfold record_after.
  pose proof (visit_current _ _ _ _ Hn) as Hc.
  destruct (last_def k (subnodes n)) as [d|] eqn:E1.
  { apply last_def_has_def in E1; rewrite E1 in Hc.
    rewrite (appending_to_None _ _ Hc); reflexivity. }
  destruct (has_def (subnodes n)).
  { rewrite (appending_to_None _ _ Hc), app_nil_r; reflexivity. }
  rewrite (appending_to_current _ _ _ Hc).
  destruct (appending_to k s);
    [apply option_map_add_calls_app | reflexivity].
Qed.

Lemma record_after_def (depth : nat) k0 ln a b d r tp (s s' : analyzer) :
  generic_visit depth (FunctionDef k0 ln a b d r tp) (enter_function k0 ln s)
    = Ok s' ->
  Q (children (FunctionDef k0 ln a b d r tp)) (enter_function k0 ln s) s' ->
  P (FunctionDef k0 ln a b d r tp) s (set_current_function None s').
Proof.
  intros _ HQ k; rewrite subnodes_eq; simpl functions; rewrite HQ.
  fold (descendants (FunctionDef k0 ln a b d r tp)).
  unfold record_after; simpl last_def; simpl calls_before_def.
  destruct (last_def k (descendants (FunctionDef k0 ln a b d r tp)));
    [reflexivity|].
  rewrite option_map_add_calls_nil.
  unfold appending_to at 1; simpl current_function; simpl functions.
  rewrite get_set, (String.eqb_sym k0 k).
  destruct (String.eqb k k0) eqn:E.
  - apply String.eqb_eq in E; subst k0.
    unfold def_record, own_calls; simpl.
    destruct (negb (String.eqb k "")); reflexivity.
  - rewrite andb_false_r; destruct (appending_to k s); reflexivity.
Qed.

Lemma record_after_call (depth : nat) f a k0 (s s1 s' : analyzer) :
  record_call f s = Ok s1 ->
  generic_visit depth (Call f a k0) s1 = Ok s' ->
  Q (children (Call f a k0)) s1 s' ->
  P (Call f a k0) s s'.
Proof.
  intros H _ HQ k; rewrite subnodes_eq, HQ.
  fold (descendants (Call f a k0)).
  unfold record_after; simpl last_def; simpl calls_before_def.
  change (if truthy (_get_call_name f) then _get_call_name f else None)
    with (call_name (Call f [] [])).
  pose proof (record_call_frame _ _ _ H) as (Hp & Hc & _); rewrite Hp.
  destruct (last_def k (descendants (Call f a k0))); [reflexivity|].
  rewrite (appending_to_current _ _ _ Hc), (record_call_get _ _ _ k H).
  destruct (appending_to k s); [|reflexivity].
  rewrite option_map_add_calls_app.
  destruct (call_name (Call f [] [])); reflexivity.
Qed.

Lemma record_after_other (depth : nat) (n : node) (s s' : analyzer) :
  is_FunctionDef n = false -> is_Call n = false ->
  generic_visit depth n s = Ok s' ->
  Q (children n) s s' ->
  P n s s'.
Proof.
  intros Hd Hc _ HQ k; rewrite subnodes_eq, HQ; fold (descendants n).
  unfold record_after; simpl last_def; simpl calls_before_def.
  rewrite Hd, (is_Call_call_name _ Hc), (is_FunctionDef_defines k _ Hd).
  destruct (last_def k (descendants n)); reflexivity.
Qed.

Lemma visit_get (depth : nat) (n : node) (s s' : analyzer) (k : string) :
  visit depth n s = Ok s' ->
  Dict.get k (functions s') = record_after k (subnodes n) s.
Proof.
  intros H; revert k.
  exact (@visit_ind P Q record_after_nil record_after_cons
           record_after_def record_after_call record_after_other n depth
           s s' H).
Qed.

Lemma for_each_visit_get (depth : nat) (l : list node) (s s' : analyzer)
  (k : string) :
  for_each (visit depth) l s = Ok s' ->
  Dict.get k (functions s') = record_after k (flat_map subnodes l) s.
Proof.
  intros H; revert k.
  exact (@for_each_visit_ind P Q record_after_nil record_after_cons
           record_after_def record_after_call record_after_other l depth
           s s' H).
Qed.
End RecordAfter.

(** ** The active function is always a key (C8) *)

(** C8. Whenever a step of the visitor starts with an active function that
    is a key of [functions], it raises no [KeyError] and ends with an
    active function that is a key of [functions]: the visit of any node,
    whatever the number of frames left, ends in such a state or raises
    [RecursionError], and it does end when the frames of the node are
    left; the bookkeeping of [visit_Call] finds its key, so its append
    does not fail; the entry and the exit of [visit_FunctionDef] establish
    the property, and the fresh analyzer has it. *)
Theorem active_function_is_key (depth : nat) (n func : node) (k : string)
  (ln : Z) (s : analyzer) :
  active_known s ->
  (forall s', visit depth n s = Ok s' -> active_known s') /\
  (forall e, visit depth n s = Raise e -> e = RecursionError) /\
  (frames n <= depth ->
   exists s', visit depth n s = Ok s' /\ active_known s') /\
  (exists s1, record_call func s = Ok s1 /\ active_known s1) /\
  active_known (enter_function k ln s) /\
  active_known (set_current_function None s) /\
  active_known (init (file_path s)).
Proof.
  intros Hs; repeat split.
  - intros s' H; exact (visit_active depth n s s' Hs H).
  - intros e H; exact (visit_Raise depth n s e Hs H).
  - intros Hd; destruct (visit_fits n depth s Hd Hs) as (s' & E).
    exists s'; split; [exact E | exact (visit_active depth n s s' Hs E)].
  - destruct (record_call_ok func s Hs) as (s1 & E); exists s1; split; auto.
    apply record_call_frame in E as (_ & Hc & Hk).
    eapply active_known_frame; eauto.
  - apply active_known_enter.
  - apply active_known_exit.
  - apply active_known_init.
Qed.

Lemma active_function_is_key_witness :
  let s := enter_function "f" 1 (init "pkg/m.py") in
  active_known s /\
  (exists s', visit available_frames (call_statement "g") s = Ok s' /\
              active_known s') /\
  (exists s1, record_call (Name "g") s = Ok s1 /\ active_known s1).
Proof.
  assert (H : active_known (enter_function "f" 1 (init "pkg/m.py"))).
  { intros a Ha; injection Ha as <-; reflexivity. }
  split; [exact H|].
  destruct (active_function_is_key available_frames (call_statement "g")
              (Name "g") "f" 1 _ H)
    as (_ & _ & H1 & H2 & _).
  split; [apply H1, Nat.leb_le; reflexivity | exact H2].
Defined.

(** The traversal that [analyze_file] starts completes when the tree is
    within the recursion limit and raises [RecursionError] when it is not:
    no [KeyError] occurs. *)
Lemma analyze_file_parsed (p : string) (tree : node) :
  if traversed tree
  then exists s, visit available_frames tree (init p) = Ok s /\
                 analyze_file {| path := p; content := Parsed tree |}
                 = (functions s, [])
  else analyze_file {| path := p; content := Parsed tree |}
       = (Dict.empty,
          [("Error analyzing " ++ p
              ++ ": maximum recursion depth exceeded")%string]).
Proof.
  pose proof (visit_cases available_frames tree (init p)
                (active_known_init p)) as H.
  unfold traversed, analyze_file; simpl.
  destruct (frames tree <=? available_frames)%nat.
  - destruct H as (s & H & _); exists s; rewrite H; auto.
  - rewrite H; reflexivity.
Qed.

Lemma analyze_file_traversed (p : string) (tree : node) :
  traversed tree = true ->
  exists s, visit available_frames tree (init p) = Ok s /\
            analyze_file {| path := p; content := Parsed tree |}
            = (functions s, []).
Proof.
  intros H; pose proof (analyze_file_parsed p tree) as E.
  rewrite H in E; exact E.
Qed.


(** A traversal that completes with few frames completes within the
    recursion limit. *)
Lemma analyze_file_visit (depth : nat) (p : string) (tree : node)
  (s : analyzer) :
  visit depth tree (init p) = Ok s -> (depth <=? available_frames)%nat = true ->
  analyze_file {| path := p; content := Parsed tree |} = (functions s, []).
Proof.
  intros H Hd; apply Nat.leb_le in Hd.
  unfold analyze_file; simpl.
  rewrite (visit_mono tree depth available_frames _ _ H Hd); reflexivity.
Qed.

(** ** Calls outside any active function are dropped (C1) *)

Lemma visit_no_def_inactive (depth : nat) (n : node) (s : analyzer) :
  has_def (subnodes n) = false -> current_function s = None ->
  visit depth n s
  = if (frames n <=? depth)%nat then Ok s else Raise RecursionError.
Proof.
  intros Hd Hc.
  assert (Hk : active_known s) by (intros a Ha; congruence).
  pose proof (visit_cases depth n s Hk) as H.
  destruct (frames n <=? depth)%nat; [|exact H].
  destruct H as (s' & E & _); rewrite E; f_equal.
  clear Hk; revert n depth s s' E Hd Hc.
  apply (visit_ind
           (fun n s s' => has_def (subnodes n) = false ->
                          current_function s = None -> s' = s)
           (fun l s s' => has_def (flat_map subnodes l) = false ->
                          current_function s = None -> s' = s)); auto.
  - intros _ n l s s1 s2 _ _ Pn Ql Hd Hc; simpl in Hd.
    rewrite has_def_app in Hd; apply orb_false_elim in Hd as (Hn & Hl).
    specialize (Pn Hn Hc); subst s1; auto.
  - intros _ k ln a b d r tp s s' _ _ Hd; rewrite subnodes_eq in Hd.
    discriminate.
  - intros _ f a k s s1 s' H _ HQ Hd Hc; rewrite subnodes_eq in Hd.
    unfold record_call in H; rewrite Hc in H; injection H as <-.
    apply HQ; auto.
  - intros _ n s s' _ _ _ HQ Hd Hc; rewrite subnodes_eq in Hd.
    simpl in Hd; apply orb_false_elim in Hd as (_ & Hd); auto.
Qed.

Lemma eqb_empty (s : string) : s <> "" -> String.eqb s "" = false.
Proof. apply String.eqb_neq. Qed.

(** One step of running the visitor on a program with symbolic names. *)
Ltac run_visitor :=
  first [ progress unfold visit_FunctionDef, visit_Call, record_call,
            append_call, with_frame
        | progress simpl ].

(** C1. Leaving a [def] statement leaves no function active, whatever
    function was active before it; a node without [def] statement visited
    while no function is active changes nothing, so its calls are dropped
    (its visit returns the analyzer as it was when the frames of the node
    are left, and raises [RecursionError] when they are not); and in
    [def o(): x(); def i(): y(); z()] the calls of [o] are exactly [x],
    those of [i] exactly [y], and [z] is in no calls list and in no
    relationship. *)
Theorem nested_definition_resets_active_function :
  (forall depth k ln a b d r tp s s',
     visit depth (FunctionDef k ln a b d r tp) s = Ok s' ->
     current_function s' = None) /\
  (forall depth n s,
     has_def (subnodes n) = false -> current_function s = None ->
     visit depth n s
     = if (frames n <=? depth)%nat then Ok s else Raise RecursionError) /\
  (forall url p o i x y z lo li,
     o <> i -> o <> "" -> i <> "" -> x <> "" -> y <> "" ->
     let f := {| path := p;
                 content := Parsed (nested_example o i x y z lo li) |} in
     fst (analyze_file f)
     = [(o, {| name := o; file := basename p; line := lo; calls := [x] |});
        (i, {| name := i; file := basename p; line := li; calls := [y] |})]
     /\ call_relationships (fst (generate_call_graph url [f]))
        = [{| caller := o; callee := x; caller_file := basename p |};
           {| caller := i; callee := y; caller_file := basename p |}]).
Proof.
  split; [|split].
  - intros depth k ln a b d r tp s s' H; apply visit_current in H.
    rewrite subnodes_eq in H; exact H.
  - apply visit_no_def_inactive.
  - intros url p o i x y z lo li Hoi Ho Hi Hx Hy f.
    pose proof (eqb_empty _ Ho) as Eo; pose proof (eqb_empty _ Hi) as Ei.
    pose proof (eqb_empty _ Hx) as Ex; pose proof (eqb_empty _ Hy) as Ey.
    pose proof (proj2 (String.eqb_neq o i) Hoi) as Eoi.
    pose proof Eoi as Eio; rewrite String.eqb_sym in Eio.
    assert (E : analyze_file f
                = ([(o, {| name := o; file := basename p; line := lo;
                           calls := [x] |});
                    (i, {| name := i; file := basename p; line := li;
                           calls := [y] |})], [])).
    { apply (analyze_file_visit 18 p (nested_example o i x y z lo li)
               {| file_path := p;
                  functions :=
                    [(o, {| name := o; file := basename p; line := lo;
                            calls := [x] |});
                     (i, {| name := i; file := basename p; line := li;
                            calls := [y] |})];
                  current_function := None |}); [|reflexivity].
      unfold nested_example, call_statement.
      repeat first
        [ reflexivity
        | progress rewrite ?Eo, ?Ei, ?Ex, ?Ey, ?Eoi, ?Eio, ?String.eqb_refl
        | run_visitor ]. }
    split; [rewrite E; reflexivity|].
    unfold generate_call_graph, analyze_files; simpl; rewrite E; simpl.
    rewrite Eio; reflexivity.
Qed.

Lemma nested_definition_resets_active_function_witness :
  let f := {| path := "repo/pkg/m.py";
              content :=
                Parsed (nested_example "outer" "inner" "x" "y" "z" 1 3) |} in
  visit available_frames (call_statement "z") (init "repo/pkg/m.py")
  = Ok (init "repo/pkg/m.py") /\
  fst (analyze_file f)
  = [("outer", {| name := "outer"; file := "m.py"; line := 1;
                  calls := ["x"] |});
     ("inner", {| name := "inner"; file := "m.py"; line := 3;
                  calls := ["y"] |})].
Proof.
  destruct nested_definition_resets_active_function as (_ & H2 & H3).
  split.
  - exact (H2 available_frames (call_statement "z") (init "repo/pkg/m.py")
             eq_refl eq_refl).
  - apply (H3 "url" "repo/pkg/m.py" "outer" "inner" "x" "y" "z" 1%Z 3%Z);
      discriminate.
Defined.

(** ** Which names a call contributes, and in which order (C3) *)

Lemma has_def_false_last_def (k : string) (l : list node) :
  has_def l = false -> last_def k l = None.
Proof.
  intros H; destruct (last_def k l) as [d|] eqn:E; [|reflexivity].
  apply last_def_has_def in E; congruence.
Qed.

Lemma calls_before_def_no_def (l : list node) :
  has_def l = false -> calls_before_def l = call_names l.
Proof.
  induction l as [|n l IH]; simpl; [reflexivity|].
  intros H; apply orb_false_elim in H as (Hn & Hl).
  rewrite Hn, IH by assumption.
  destruct (call_name n); reflexivity.
Qed.

Lemma In_call_names (l : list node) (c : node) (g : string) :
  In c l -> call_name c = Some g -> In g (call_names l).
Proof.
  intros Hc Hg; apply in_flat_map; exists c; split; [assumption|].
  rewrite Hg; simpl; auto.
Qed.



(** The record a [def] statement leaves when it contains no other [def]
    statement for the same name. *)
Lemma visit_def_record (depth : nat) k ln a b d r tp (s s' : analyzer) :
  visit depth (FunctionDef k ln a b d r tp) s = Ok s' ->
  last_def k (descendants (FunctionDef k ln a b d r tp)) = None ->
  Dict.get k (functions s')
  = Some (def_record (file_path s) k (FunctionDef k ln a b d r tp)).
Proof.
  intros H Hl; rewrite (visit_get _ _ _ _ k H); unfold record_after.
  rewrite subnodes_eq; simpl last_def; rewrite Hl; simpl.
  rewrite String.eqb_refl; reflexivity.
Qed.



(** ** Calls in decorators and default values (C9) *)

(** C9, as stated, fails: the decorator list is visited after the body,
    and once the body has held a nested [def] statement no function is
    active, so the call [deco(arg)] is dropped; and a nested definition
    with the name of the enclosing one replaces the record that held the
    call [g()] of the default value. *)
Lemma decorator_call_dropped_after_nested_def :
  fst (analyze_file {| path := "m.py"; content := Parsed decorated_example |})
  = [("f", {| name := "f"; file := "m.py"; line := 2; calls := [] |});
     ("inner", {| name := "inner"; file := "m.py"; line := 3; calls := [] |})]
  /\
  fst (analyze_file
         {| path := "m.py"; content := Parsed shadowed_default_example |})
  = [("f", {| name := "f"; file := "m.py"; line := 2; calls := [] |})].
Proof. split; reflexivity. Qed.

Lemma descendants_FunctionDef k ln a b d r tp :
  descendants (FunctionDef k ln a b d r tp)
  = subnodes a ++ flat_map subnodes b ++ flat_map subnodes d
      ++ flat_map subnodes (option_nodes r ++ tp).
Proof.
  unfold descendants; cbn [children flat_map].
  rewrite !flat_map_app; reflexivity.
Qed.

(** C9, amended. After the visit of a [def] statement for [f] that
    completes, the record under [f] is that of the last nested [def]
    statement for [f] if there is one.  If there is none, the calls of [f]
    are the names of the calls met in the parameter list, the body, the
    decorator list, the return annotation and the type parameters, in
    this order and each in pre-order, up to the first nested [def]
    statement.  So every call anywhere in the parameter list is among
    them; every call anywhere in the decorator list is among them when
    the body holds no [def] statement; and when the body holds one, they
    end with the calls of the body before it, and no call of the decorator
    list is appended. *)
Theorem decorator_and_default_calls (depth : nat) (f : string) (ln : Z)
  (pa ar : list node) (va : option node) (ko : list node)
  (kd : list (option node)) (kw : option node)
  (defaults body decos : list node) (r : option node) (tp : list node)
  (s s' : analyzer) :
  let params := arguments pa ar va ko kd kw defaults in
  let d := FunctionDef f ln params body decos r tp in
  let in_params := subnodes params in
  let in_body := flat_map subnodes body in
  let in_decos := flat_map subnodes decos in
  let in_rest := flat_map subnodes (option_nodes r ++ tp) in
  f <> "" -> visit depth d s = Ok s' ->
  (forall d', last_def f (descendants d) = Some d' ->
     Dict.get f (functions s')
     = Some {| name := f; file := basename (file_path s);
               line := def_lineno d'; calls := own_calls f d' |}) /\
  (last_def f (descendants d) = None ->
   exists cs,
     Dict.get f (functions s')
     = Some {| name := f; file := basename (file_path s); line := ln;
               calls := cs |} /\
     cs = calls_before_def (in_params ++ in_body ++ in_decos ++ in_rest) /\
     (has_def in_params = false ->
      (exists rest,
         cs = call_names in_params ++ calls_before_def in_body ++ rest) /\
      (forall c g, In c in_params -> call_name c = Some g -> In g cs)) /\
     (has_def in_params = false -> has_def in_body = false ->
      has_def in_decos = false ->
      cs = call_names in_params ++ call_names in_body
             ++ call_names in_decos ++ calls_before_def in_rest /\
      (forall c g, In c in_decos -> call_name c = Some g -> In g cs)) /\
     (has_def in_params = false -> has_def in_body = true ->
      cs = call_names in_params ++ calls_before_def in_body)).
Proof.
  intros params d in_params in_body in_decos in_rest Hf H; split.
  - intros d' Hl; rewrite (visit_get _ _ _ _ f H); unfold record_after.
    rewrite subnodes_eq; cbn [last_def]; rewrite Hl; reflexivity.
  - intros Hl; unfold d in H, Hl.
    rewrite (visit_def_record _ _ _ _ _ _ _ _ _ _ H Hl).
    unfold def_record, own_calls; cbn [def_lineno].
    rewrite (proj2 (truthy_Some f) Hf), descendants_FunctionDef.
    fold params in_params in_body in_decos in_rest.
    eexists; split; [reflexivity|]; split; [reflexivity|].
    rewrite !calls_before_def_app; split; [|split].
    + intros Hp; rewrite Hp, (calls_before_def_no_def _ Hp).
      split; [eauto|].
      intros c g Hc Hg; apply in_or_app; left.
      exact (In_call_names _ c g Hc Hg).
    + intros Hp Hb Hdc.
      rewrite Hp, Hb, Hdc, !calls_before_def_no_def by assumption.
      split; [reflexivity|].
      intros c g Hc Hg.
      apply in_or_app; right; apply in_or_app; right; apply in_or_app; left.
      exact (In_call_names _ c g Hc Hg).
    + intros Hp Hb.
      rewrite Hp, Hb, (calls_before_def_no_def _ Hp), app_nil_r.
      reflexivity.
Qed.

Lemma decorator_and_default_calls_witness :
  exists s',
    visit available_frames defaults_example (init "m.py") = Ok s' /\
    Dict.get "f" (functions s')
    = Some {| name := "f"; file := "m.py"; line := 2;
              calls := ["h"; "g"; "a"; "b"] |}.
Proof.
  eexists; split; [reflexivity|].
  destruct (decorator_and_default_calls available_frames "f" 2
              [] [Other []] None [Other []] [Some (Call (Name "h") [] [])]
              None [Other [Call (Name "g") [] []]] [Other []]
              [Call (Name "a") [Call (Name "b") [] []] []] None []
              (init "m.py") _ ltac:(discriminate) eq_refl)
    as (_ & H).
  destruct (H eq_refl) as (cs & E & -> & _); exact E.
Defined.

(** ** Which definitions get a record (C4) *)




(** The record of [k] that the analysis of a file returns is the one of
    the last [def] statement for [k] in the file, when the traversal of
    the file completes; there is none when it does not. *)
Lemma analyze_file_get (p : string) (tree : node) (k : string) :
  Dict.get k (fst (analyze_file {| path := p; content := Parsed tree |}))
  = if traversed tree
    then option_map (def_record p k) (last_def k (subnodes tree))
    else None.
Proof.
  pose proof (analyze_file_parsed p tree) as E.
  destruct (traversed tree); [|rewrite E; reflexivity].
  destruct E as (s & H & ->); simpl.
  rewrite (visit_get _ _ _ _ k H); unfold record_after; simpl.
  destruct (last_def k (subnodes tree)); reflexivity.
Qed.



(** ** The merge loop *)

Lemma analyze_step_eq (acc : Dict.t func_info * list string)
  (f : source_file) :
  analyze_step acc f = (merge_file (fst acc) f, snd acc ++ printed_for f).
Proof.
  destruct acc as [d o]; unfold analyze_step, merge_file, printed_for.
  destruct (analyze_file f); reflexivity.
Qed.

Lemma fold_analyze_step (l : list source_file)
  (acc : Dict.t func_info * list string) :
  fold_left analyze_step l acc
  = (fold_left merge_file l (fst acc), snd acc ++ flat_map printed_for l).
Proof.
  revert acc; induction l as [|f l IH]; intros acc; simpl.
  - rewrite app_nil_r; destruct acc; reflexivity.
  - rewrite IH, analyze_step_eq; simpl; rewrite <- app_assoc; reflexivity.
Qed.

Lemma analyze_files_eq (l : list source_file) :
  analyze_files l = (fold_left merge_file l Dict.empty, flat_map printed_for l).
Proof. unfold analyze_files; rewrite fold_analyze_step; reflexivity. Qed.

Lemma generate_call_graph_eq (url : string) (l : list source_file) :
  generate_call_graph url l
  = ({| repository := url;
        total_functions := Dict.len (fold_left merge_file l Dict.empty);
        graph_functions := fold_left merge_file l Dict.empty;
        call_relationships :=
          build_relationships (fold_left merge_file l Dict.empty) |},
     flat_map printed_for l).
Proof. unfold generate_call_graph; rewrite analyze_files_eq; reflexivity. Qed.

Lemma analyze_file_NoDup (f : source_file) :
  NoDup (Dict.keys (fst (analyze_file f))).
Proof.
  unfold analyze_file; destruct (content f) as [tree|m]; [|constructor].
  destruct (visit available_frames tree (init (path f))) as [s|e] eqn:E;
    [|constructor].
  apply (visit_NoDup _ tree (init (path f)) s E); constructor.
Qed.

Lemma merge_files_NoDup (l : list source_file) (d : Dict.t func_info) :
  NoDup (Dict.keys d) -> NoDup (Dict.keys (fold_left merge_file l d)).
Proof.
  revert d; induction l as [|f l IH]; intros d H; simpl; [assumption|].
  apply IH, NoDup_update, H.
Qed.

Lemma merge_file_get (d : Dict.t func_info) (f : source_file) (k : string) :
  Dict.get k (merge_file d f)
  = match Dict.get k (fst (analyze_file f)) with
    | Some v => Some v
    | None => Dict.get k d
    end.
Proof. apply get_update, analyze_file_NoDup. Qed.


Lemma get_split {V : Type} (k : string) (v : V) (d : Dict.t V) :
  Dict.get k d = Some v ->
  exists d1 d2, d = d1 ++ (k, v) :: d2 /\ ~ In k (Dict.keys d1).
Proof.
  induction d as [|[k' v'] d IH]; simpl; [discriminate|].
  destruct (String.eqb k k') eqn:E.
  - apply String.eqb_eq in E; subst k'; intros [= ->].
    exists [], d; simpl; auto.
  - intros H; destruct (IH H) as (d1 & d2 & -> & Hn).
    exists ((k', v') :: d1), d2; split; [reflexivity|].
    simpl; intros [->|Hk]; [|auto].
    rewrite String.eqb_refl in E; discriminate.
Qed.

Lemma NoDup_keys_split {V : Type} (k : string) (v : V) (d1 d2 : Dict.t V) :
  NoDup (Dict.keys (d1 ++ (k, v) :: d2)) ->
  ~ In k (Dict.keys d1) /\ ~ In k (Dict.keys d2).
Proof.
  unfold Dict.keys; rewrite map_app; simpl; intros H.
  apply NoDup_remove_2 in H; split; intros Hk; apply H, in_or_app; auto.
Qed.

(** ** The report (C5) *)

Lemma build_relationships_length (d : Dict.t func_info) :
  List.length (build_relationships d)
  = list_sum (map (fun info => List.length (calls info)) (Dict.values d)).
Proof.
  induction d as [|[k info] d IH]; simpl; [reflexivity|].
  rewrite List.length_app, IH; unfold relationships_of; rewrite List.length_map.
  reflexivity.
Qed.

Lemma build_relationships_callees (d : Dict.t func_info) :
  map callee (build_relationships d) = flat_map calls (Dict.values d).
Proof.
  induction d as [|[k info] d IH]; simpl; [reflexivity|].
  rewrite map_app, IH; unfold relationships_of; rewrite map_map; simpl.
  rewrite map_id; reflexivity.
Qed.

Lemma In_build_relationships (d : Dict.t func_info) (rel : relationship) :
  In rel (build_relationships d) <->
  exists k info, In (k, info) d /\ In (callee rel) (calls info) /\
                 caller rel = k /\ caller_file rel = file info.
Proof.
  unfold build_relationships; rewrite in_flat_map; split.
  - intros ([k info] & Hin & Hrel); unfold relationships_of in Hrel.
    apply in_map_iff in Hrel as (c & <- & Hc); simpl in *.
    exists k, info; auto.
  - intros (k & info & Hin & Hc & Hk & Hf); exists (k, info).
    split; [assumption|]; unfold relationships_of; simpl.
    apply in_map_iff; exists (callee rel); split; [|assumption].
    destruct rel; simpl in *; subst; reflexivity.
Qed.

(** C5. In every report [total_functions] is the number of keys of
    [functions], which are pairwise distinct; [call_relationships] has as
    many entries as the calls lists of the records have together; its
    callees are the elements of these calls lists, in the order of the
    registry; and an entry is in it exactly when its caller is a key of
    the registry, its callee an element of the calls of the caller's
    record and its file the file of that record. *)
Theorem report_counts_and_relationships (url : string)
  (python_files : list source_file) :
  let report := fst (generate_call_graph url python_files) in
  total_functions report = List.length (Dict.keys (graph_functions report)) /\
  NoDup (Dict.keys (graph_functions report)) /\
  List.length (call_relationships report)
  = list_sum (map (fun info => List.length (calls info))
                (Dict.values (graph_functions report))) /\
  map callee (call_relationships report)
  = flat_map calls (Dict.values (graph_functions report)) /\
  (forall rel,
     In rel (call_relationships report) <->
     exists info,
       Dict.get (caller rel) (graph_functions report) = Some info /\
       In (callee rel) (calls info) /\
       caller_file rel = file info).
Proof.
  rewrite generate_call_graph_eq; simpl.
  set (d := fold_left merge_file python_files Dict.empty).
  assert (Hd : NoDup (Dict.keys d))
    by (apply merge_files_NoDup; constructor).
  split; [unfold Dict.len, Dict.keys; rewrite List.length_map; reflexivity|].
  split; [exact Hd|].
  split; [apply build_relationships_length|].
  split; [apply build_relationships_callees|].
  intros rel; rewrite In_build_relationships; split.
  - intros (k & info & Hin & Hc & Hk & Hf); exists info; subst k.
    split; [apply In_get; assumption | auto].
  - intros (info & Hg & Hc & Hf); exists (caller rel), info.
    split; [apply get_In; assumption | auto].
Qed.

(** ** A file that fails (C6) *)

Lemma merge_files_app (l1 l2 : list source_file) (d : Dict.t func_info) :
  fold_left merge_file (l1 ++ l2) d
  = fold_left merge_file l2 (fold_left merge_file l1 d).
Proof. apply fold_left_app. Qed.

(** C6. When reading or parsing a file fails, or its traversal raises,
    [analyze_file] returns the empty mapping and prints one diagnostic
    naming the file; the run goes on: the report is the one of the run
    without that file, and what is printed is what that run prints, with
    the two lines for the failed file at its place. *)
Theorem failed_file_contributes_nothing (url : string)
  (before after : list source_file) (f : source_file) (message : string) :
  content f = Failed message \/
  (exists tree e, content f = Parsed tree /\
                  visit available_frames tree (init (path f)) = Raise e /\
                  message = exn_message e) ->
  analyze_file f = (Dict.empty, [diagnostic f message]) /\
  fst (generate_call_graph url (before ++ f :: after))
  = fst (generate_call_graph url (before ++ after)) /\
  snd (generate_call_graph url (before ++ f :: after))
  = snd (generate_call_graph url before)
      ++ [("Analyzing: " ++ basename (path f))%string; diagnostic f message]
      ++ flat_map printed_for after.
Proof.
  intros H.
  assert (E : analyze_file f = (Dict.empty, [diagnostic f message])).
  { unfold analyze_file, diagnostic.
    destruct H as [->|(tree & e & -> & -> & ->)]; reflexivity. }
  split; [exact E|].
  assert (Em : forall d, merge_file d f = d)
    by (intros d; unfold merge_file; rewrite E; reflexivity).
  assert (Ep : printed_for f
               = [("Analyzing: " ++ basename (path f))%string;
                  diagnostic f message])
    by (unfold printed_for; rewrite E; reflexivity).
  rewrite !generate_call_graph_eq; cbn [fst snd].
  rewrite !merge_files_app, !flat_map_app; cbn [fold_left flat_map].
  rewrite Em, Ep; split; reflexivity.
Qed.

Lemma failed_file_contributes_nothing_witness :
  let bad := {| path := "repo/bad.py";
                content := Failed "invalid syntax (bad.py, line 1)" |} in
  (content bad = Failed "invalid syntax (bad.py, line 1)" /\
   fst (generate_call_graph "url" ([scenario_a] ++ bad :: [scenario_b]))
   = fst (generate_call_graph "url" ([scenario_a] ++ [scenario_b])) /\
   snd (generate_call_graph "url" ([scenario_a] ++ bad :: [scenario_b]))
   = ["Analyzing: a.py"; "Analyzing: bad.py";
      "Error analyzing repo/bad.py: invalid syntax (bad.py, line 1)";
      "Analyzing: b.py"]) /\
  (visit available_frames deep_example (init "repo/deep.py")
   = Raise RecursionError /\
   fst (generate_call_graph "url"
          ([scenario_a]
             ++ {| path := "repo/deep.py"; content := Parsed deep_example |}
             :: [scenario_b]))
   = fst (generate_call_graph "url" ([scenario_a] ++ [scenario_b])) /\
   snd (generate_call_graph "url"
          ([scenario_a]
             ++ {| path := "repo/deep.py"; content := Parsed deep_example |}
             :: [scenario_b]))
   = ["Analyzing: a.py"; "Analyzing: deep.py";
      "Error analyzing repo/deep.py: maximum recursion depth exceeded";
      "Analyzing: b.py"]).
Proof.
  split.
  - split; [reflexivity|].
    destruct (failed_file_contributes_nothing "url" [scenario_a] [scenario_b]
                {| path := "repo/bad.py";
                   content := Failed "invalid syntax (bad.py, line 1)" |}
                "invalid syntax (bad.py, line 1)" (or_introl eq_refl))
      as (_ & H1 & H2).
    split; [exact H1 | rewrite H2; reflexivity].
  - assert (E : visit available_frames deep_example (init "repo/deep.py")
                = Raise RecursionError) by (vm_compute; reflexivity).
    split; [exact E|].
    destruct (failed_file_contributes_nothing "url" [scenario_a] [scenario_b]
                {| path := "repo/deep.py"; content := Parsed deep_example |}
                "maximum recursion depth exceeded"
                (or_intror
                   (ex_intro _ deep_example
                      (ex_intro _ RecursionError
                         (conj eq_refl (conj E eq_refl))))))
      as (_ & H1 & H2).
    split; [exact H1 | rewrite H2; reflexivity].
Defined.

(** ** A redefined name keeps its place (C10) *)

Lemma keys_split {V : Type} (d : Dict.t V) (k : string) (l1 l2 : list string) :
  Dict.keys d = l1 ++ k :: l2 ->
  exists m1 v m2, d = m1 ++ (k, v) :: m2 /\
                  Dict.keys m1 = l1 /\ Dict.keys m2 = l2.
Proof.
  unfold Dict.keys; intros H.
  apply map_eq_app in H as (m1 & m' & -> & H1 & H').
  apply map_eq_cons in H' as ([k' v] & m2 & -> & Hk & H2); simpl in Hk.
  subst k'; exists m1, v, m2; auto.
Qed.

Lemma build_relationships_expected (d : Dict.t func_info) :
  build_relationships d = expected_relationships d.
Proof. reflexivity. Qed.

Lemma In_expected_relationships (d : Dict.t func_info) (rel : relationship) :
  In rel (expected_relationships d) -> In (caller rel) (Dict.keys d).
Proof.
  rewrite <- build_relationships_expected, In_build_relationships.
  intros (k & info & Hin & _ & -> & _).
  apply in_map_iff; exists (k, info); auto.
Qed.

(** C10. When the file merged last defines a name [k] that the registry
    already holds, the record of [k] is replaced where it stands: the keys
    before it are the same, and the keys after it are the same followed by
    the names that are new.  The relationships of the report are, in this
    order: those of the records under the keys that stood before [k], one
    entry per call of the new record of [k] with the file of the new
    record, and those of the records under the keys that stood after [k]
    and under the new names.  No entry outside the middle part has the
    caller [k]: the relationships of [k] stand before those of every key
    that followed [k] in the registry, although [k] was redefined after
    them. *)
Theorem redefinition_keeps_first_position (url : string)
  (earlier : list source_file) (f : source_file) (k : string)
  (old new : func_info) :
  let registry := graph_functions (fst (generate_call_graph url earlier)) in
  let report := fst (generate_call_graph url (earlier ++ [f])) in
  Dict.get k registry = Some old ->
  Dict.get k (fst (analyze_file f)) = Some new ->
  exists d1 d2 m1 m2 added,
    registry = d1 ++ (k, old) :: d2 /\
    graph_functions report = m1 ++ (k, new) :: m2 /\
    Dict.keys m1 = Dict.keys d1 /\
    Dict.keys m2 = Dict.keys d2 ++ added /\
    (forall x, In x added -> ~ In x (Dict.keys registry)) /\
    ~ In k (Dict.keys m1) /\ ~ In k (Dict.keys m2) /\
    call_relationships report
    = expected_relationships m1
        ++ map (fun c => {| caller := k; callee := c;
                            caller_file := file new |})
             (calls new)
        ++ expected_relationships m2 /\
    (forall rel, In rel (expected_relationships m1) ->
                 In (caller rel) (Dict.keys d1) /\ caller rel <> k) /\
    (forall rel, In rel (expected_relationships m2) ->
                 In (caller rel) (Dict.keys d2 ++ added) /\ caller rel <> k).
Proof.
  rewrite !generate_call_graph_eq; simpl; rewrite merge_files_app; simpl.
  set (d := fold_left merge_file earlier Dict.empty).
  intros Hold Hnew.
  destruct (get_split k old d Hold) as (d1 & d2 & Ed & _).
  assert (Hk : Dict.keys (merge_file d f)
               = Dict.keys d1
                   ++ k :: (Dict.keys d2
                              ++ filter (fun x => negb (Dict.mem x d))
                                   (Dict.keys (fst (analyze_file f))))).
  { unfold merge_file; rewrite keys_update by apply analyze_file_NoDup.
    rewrite Ed at 1; unfold Dict.keys; rewrite map_app, <- app_assoc.
    reflexivity. }
  destruct (keys_split _ _ _ _ Hk) as (m1 & v & m2 & Em & H1 & H2).
  assert (Hnd : NoDup (Dict.keys (merge_file d f)))
    by (apply NoDup_update, merge_files_NoDup; constructor).
  assert (Hv : v = new).
  { assert (Hg : Dict.get k (merge_file d f) = Some new)
      by (rewrite merge_file_get, Hnew; reflexivity).
    assert (Hin : In (k, v) (merge_file d f))
      by (rewrite Em; apply in_or_app; right; left; reflexivity).
    apply In_get in Hin; [congruence | exact Hnd]. }
  subst v.
  rewrite Em in Hnd; apply NoDup_keys_split in Hnd as (Hn1 & Hn2).
  exists d1, d2, m1, m2; eexists.
  split; [exact Ed|]; split; [exact Em|]; split; [exact H1|].
  split; [exact H2|]; split; [|split; [exact Hn1|split; [exact Hn2|]]].
  - intros x Hx; apply filter_In in Hx as (_ & Hx).
    apply negb_true_iff in Hx; apply mem_false in Hx; exact Hx.
  - split; [|split].
    + rewrite Em, build_relationships_expected.
      unfold expected_relationships; rewrite flat_map_app; reflexivity.
    + intros rel Hrel; apply In_expected_relationships in Hrel.
      split; [rewrite <- H1; exact Hrel | intros E; apply Hn1; congruence].
    + intros rel Hrel; apply In_expected_relationships in Hrel.
      split; [rewrite <- H2; exact Hrel | intros E; apply Hn2; congruence].
Qed.

Lemma redefinition_keeps_first_position_witness :
  let registry :=
    graph_functions (fst (generate_call_graph "url" [scenario_first])) in
  let report :=
    fst (generate_call_graph "url" ([scenario_first] ++ [scenario_second])) in
  let old := {| name := "foo"; file := "first.py"; line := 3;
                calls := ["bar"] |} in
  let new := {| name := "foo"; file := "second.py"; line := 3;
                calls := ["baz"; "qux"] |} in
  Dict.keys registry = ["first"; "foo"; "last"] /\
  Dict.keys (graph_functions report) = ["first"; "foo"; "last"; "fresh"] /\
  call_relationships report
  = [{| caller := "first"; callee := "x"; caller_file := "first.py" |};
     {| caller := "foo"; callee := "baz"; caller_file := "second.py" |};
     {| caller := "foo"; callee := "qux"; caller_file := "second.py" |};
     {| caller := "last"; callee := "y"; caller_file := "first.py" |};
     {| caller := "fresh"; callee := "z"; caller_file := "second.py" |}] /\
  exists d1 d2 m1 m2 added,
    registry = d1 ++ ("foo", old) :: d2 /\
    graph_functions report = m1 ++ ("foo", new) :: m2 /\
    Dict.keys m1 = Dict.keys d1 /\
    Dict.keys m2 = Dict.keys d2 ++ added /\
    (forall x, In x added -> ~ In x (Dict.keys registry)) /\
    ~ In "foo" (Dict.keys m1) /\ ~ In "foo" (Dict.keys m2) /\
    call_relationships report
    = expected_relationships m1
        ++ map (fun c => {| caller := "foo"; callee := c;
                            caller_file := file new |})
             (calls new)
        ++ expected_relationships m2 /\
    (forall rel, In rel (expected_relationships m1) ->
                 In (caller rel) (Dict.keys d1) /\ caller rel <> "foo") /\
    (forall rel, In rel (expected_relationships m2) ->
                 In (caller rel) (Dict.keys d2 ++ added) /\
                 caller rel <> "foo").
Proof.
  split; [reflexivity|]; split; [reflexivity|]; split; [reflexivity|].
  exact (redefinition_keeps_first_position "url" [scenario_first]
           scenario_second "foo" _ _ eq_refl eq_refl).
Defined.

(** ** The last definition of a name wins (C2) *)





(** ** The report does not depend on the directory (C7) *)

Lemma enter_function_with_path (p k : string) (ln : Z) (s : analyzer) :
  basename p = basename (file_path s) ->
  enter_function k ln (with_path p s) = with_path p (enter_function k ln s).
Proof. unfold enter_function; simpl; intros ->; reflexivity. Qed.

Lemma record_call_with_path (p : string) (func : node) (s : analyzer) :
  record_call func (with_path p s)
  = match record_call func s with
    | Ok s1 => Ok (with_path p s1)
    | Raise e => Raise e
    end.
Proof.
  unfold record_call; simpl.
  destruct (truthy (current_function s)); [|reflexivity].
  destruct (truthy (_get_call_name func)); [|reflexivity].
  destruct (current_function s) as [cur|]; [|reflexivity].
  destruct (_get_call_name func) as [c|]; [|reflexivity].
  unfold append_call; simpl.
  destruct (Dict.get cur (functions s)); reflexivity.
Qed.

Lemma for_each_visit_with_path (l : list node) :
  Forall (fun n => forall depth s p, basename p = basename (file_path s) ->
            visit depth n (with_path p s)
            = match visit depth n s with
              | Ok s' => Ok (with_path p s')
              | Raise e => Raise e
              end) l ->
  forall depth s p, basename p = basename (file_path s) ->
    for_each (visit depth) l (with_path p s)
    = match for_each (visit depth) l s with
      | Ok s' => Ok (with_path p s')
      | Raise e => Raise e
      end.
Proof.
  induction 1 as [|n l Hn _ IH]; intros depth s p Hp; simpl; [reflexivity|].
  rewrite (Hn depth s p Hp);
    destruct (visit depth n s) as [s1|e] eqn:E; [|reflexivity].
  apply IH; rewrite (visit_file_path depth n s s1 E); exact Hp.
Qed.

(** The traversal of a tree under another path with the same base name
    goes the same way. *)
Lemma visit_with_path (n : node) :
  forall depth s p, basename p = basename (file_path s) ->
    visit depth n (with_path p s)
    = match visit depth n s with
      | Ok s' => Ok (with_path p s')
      | Raise e => Raise e
      end.
Proof.
  induction n as [n IH] using node_children_ind.
  intros depth s p Hp; rewrite !visit_eq.
  pose proof (for_each_visit_with_path _ IH) as HQ.
  assert (HG : forall depth s, basename p = basename (file_path s) ->
                 generic_visit depth n (with_path p s)
                 = match generic_visit depth n s with
                   | Ok s' => Ok (with_path p s')
                   | Raise e => Raise e
                   end).
  { intros d t Ht; rewrite !generic_visit_eq.
    destruct d as [|[|d]]; [reflexivity | reflexivity | apply HQ, Ht]. }
  destruct depth as [|depth]; [reflexivity|]; cbn [with_frame].
  destruct n as [b|k ln a b d r tp|k ln a b d r tp|k bs ks b d tp|a b
                |pa ar va ko kd kw df|v|func a kw|id|v attr|l];
    try (apply HG; assumption).
  - destruct depth as [|depth]; [reflexivity|]; cbn [with_frame].
    rewrite enter_function_with_path by assumption.
    rewrite HG by exact Hp.
    destruct (generic_visit depth _ (enter_function k ln s)); reflexivity.
  - destruct depth as [|depth]; [reflexivity|]; cbn [with_frame].
    rewrite record_call_with_path.
    destruct (record_call func s) as [s1|e] eqn:E; simpl; [|reflexivity].
    apply HG; apply record_call_frame in E as (-> & _); exact Hp.
Qed.

Lemma analyze_file_same_source (f g : source_file) :
  same_source f g -> fst (analyze_file f) = fst (analyze_file g).
Proof.
  destruct f as [p [t|m]], g as [q [u|m']]; unfold same_source; simpl;
    intros (Hb & Ht); try contradiction; [subst u|reflexivity].
  unfold analyze_file; simpl.
  change (init p) with (with_path p (init q)).
  rewrite visit_with_path by exact Hb.
  destruct (visit available_frames t (init q)); reflexivity.
Qed.

(** C7. Two runs over the same sequence of files, each with the same base
    name and the same content in both runs, whatever the directories they
    were cloned into, end with the same report: repository, count,
    registry with its order, and relationships with their order. *)
Theorem report_is_reproducible (url : string)
  (run1 run2 : list source_file) :
  Forall2 same_source run1 run2 ->
  fst (generate_call_graph url run1) = fst (generate_call_graph url run2).
Proof.
  intros H; rewrite !generate_call_graph_eq; simpl.
  assert (E : forall d, fold_left merge_file run1 d
                        = fold_left merge_file run2 d).
  { induction H as [|f g l1 l2 Hfg _ IH]; intros d; simpl; [reflexivity|].
    unfold merge_file at 2 4; rewrite (analyze_file_same_source f g Hfg).
    apply IH. }
  rewrite E; reflexivity.
Qed.

Lemma report_is_reproducible_witness :
  Forall2 same_source (cloned_into "/tmp/tmpab12") (cloned_into "/tmp/tmpxy89")
  /\ fst (generate_call_graph "url" (cloned_into "/tmp/tmpab12"))
     = fst (generate_call_graph "url" (cloned_into "/tmp/tmpxy89")).
Proof.
  assert (H : Forall2 same_source (cloned_into "/tmp/tmpab12")
                (cloned_into "/tmp/tmpxy89"))
    by (repeat constructor).
  split; [exact H|].
  exact (report_is_reproducible "url" _ _ H).
Defined.


(** * The files of a clone *)

(** ** Induction over directory trees *)

Lemma fs_size_entry (name : string) (sub : fs_node)
  (entries : list (string * fs_node)) :
  In (name, sub) entries ->
  fs_size sub
  <= list_sum
       (map (fun e => match e with (_, s) => fs_size s end) entries).
Proof.
  induction entries as [|[n s] entries IH]; simpl; [tauto|].
  intros [[= -> ->]|H]; [lia | apply IH in H; lia].
Qed.

Lemma fs_node_entries_ind (P : fs_node -> Prop) :
  (forall c, P (RegularFile c)) ->
  (forall entries,
     (forall name sub, In (name, sub) entries -> P sub) ->
     P (Directory entries)) ->
  forall fs, P fs.
Proof.
  intros Hf Hd.
  assert (H : forall m fs, fs_size fs < m -> P fs).
  { induction m as [|m IH]; intros fs Hm; [lia|].
    destruct fs as [c|entries]; [apply Hf|].
    apply Hd; intros name sub Hin; apply IH.
    apply fs_size_entry in Hin; simpl in Hm; lia. }
  intros fs; apply (H (S (fs_size fs))); lia.
Qed.

Lemma flat_map_flat_map {A B C : Type} (f : B -> list C) (g : A -> list B)
  (l : list A) :
  flat_map f (flat_map g l) = flat_map (fun x => flat_map f (g x)) l.
Proof.
  induction l as [|x l IH]; simpl; [reflexivity|].
  rewrite flat_map_app, IH; reflexivity.
Qed.

(** ** [find_python_files], directory by directory *)

Lemma python_filenames (top : string) (entries : list (string * fs_node)) :
  map (join top)
    (filter (fun file => endswith file ".py") (filenames entries))
  = flat_map
      (fun e =>
         match e with
         | (name, RegularFile _) =>
             if endswith name ".py" then [join top name] else []
         | (_, Directory _) => []
         end)
      entries.
Proof.
  unfold filenames; induction entries as [|[name [c|sub]] entries IH];
    simpl; [reflexivity| |exact IH].
  unfold is_dir; simpl; destruct (endswith name ".py"); simpl;
    rewrite <- IH; reflexivity.
Qed.

(** The files of a directory itself come first, then those of its
    subdirectories, one subdirectory after the other. *)
Lemma find_python_files_Directory (top : string)
  (entries : list (string * fs_node)) :
  find_python_files top (Directory entries)
  = flat_map
      (fun e =>
         match e with
         | (name, RegularFile _) =>
             if endswith name ".py" then [join top name] else []
         | (_, Directory _) => []
         end)
      entries
    ++ flat_map
         (fun e =>
            match e with
            | (name, sub) =>
                if is_dir e && negb (startswith name ".")
                then find_python_files (join top name) sub
                else []
            end)
         entries.
Proof.
  unfold find_python_files; simpl walk; simpl flat_map at 1.
  rewrite python_filenames, flat_map_flat_map; f_equal.
  apply flat_map_ext; intros [name sub].
  destruct (is_dir (name, sub) && negb (startswith name "."));
    reflexivity.
Qed.

Lemma python_sources_paths (top : string) (fs : fs_node) :
  map path (python_sources top fs) = find_python_files top fs.
Proof.
  revert top; induction fs as [c|entries IH] using fs_node_entries_ind;
    intros top; [reflexivity|].
  rewrite find_python_files_Directory; simpl python_sources.
  rewrite map_app, !flat_map_concat_map, !concat_map, !map_map.
  f_equal; f_equal; apply map_ext_in; intros [name sub] Hin.
  - destruct sub as [c|es]; [|reflexivity].
    destruct (endswith name ".py"); reflexivity.
  - destruct (is_dir (name, sub) && negb (startswith name "."));
      [apply (IH name sub Hin) | reflexivity].
Qed.

(** ** Which files are found *)

(** X1. [find_python_files] returns a path exactly when it is the path of
    an entry that is not a directory, whose name ends in [.py], reached
    from the top through directories whose names do not start with a dot:
    nothing else is returned and no such file is missed.  Neither the name
    of the top directory nor a leading dot of the file name matters. *)
Theorem find_python_files_finds_exactly (top : string) (fs : fs_node)
  (p : string) :
  In p (find_python_files top fs) <-> found_in top fs p.
Proof.
  revert top; induction fs as [c|entries IH] using fs_node_entries_ind;
    intros top.
  - split; [intros [] | intros H; inversion H].
  - rewrite find_python_files_Directory, in_app_iff, !in_flat_map; split.
    + intros [([name sub] & Hin & Hp)|([name sub] & Hin & Hp)].
      * destruct sub as [c|es]; [|destruct Hp].
        destruct (endswith name ".py") eqn:E; [|destruct Hp].
        destruct Hp as [<-|[]]; eapply found_here; eauto.
      * destruct (is_dir (name, sub)); [|destruct Hp].
        destruct (startswith name ".") eqn:E; [destruct Hp|].
        simpl in Hp; eapply found_below; eauto.
        apply (IH name sub Hin); exact Hp.
    + intros H; inversion H as [t es name c Hin E|t es name sub q Hin E Hq];
        subst.
      * left; exists (name, RegularFile c); split; [exact Hin|].
        rewrite E; left; reflexivity.
      * right; exists (name, sub); split; [exact Hin|].
        apply (IH name sub Hin) in Hq.
        destruct sub as [c|es']; [destruct Hq|].
        unfold is_dir; simpl; rewrite E; exact Hq.
Qed.

Lemma flat_map_ext_In {A B : Type} (f g : A -> list B) (l : list A) :
  (forall x, In x l -> f x = g x) -> flat_map f l = flat_map g l.
Proof.
  induction l as [|x l IH]; simpl; intros H; [reflexivity|].
  rewrite (H x), IH by auto; reflexivity.
Qed.

(** X2. What lies in a directory whose name starts with a dot, at any
    depth below the top, has no effect: the files found, and what is read
    from them, are those of the tree with these directories removed. *)
Theorem hidden_directories_are_skipped (top : string) (fs : fs_node) :
  python_sources top (prune_hidden fs) = python_sources top fs /\
  find_python_files top (prune_hidden fs) = find_python_files top fs.
Proof.
  assert (H : forall fs top,
             python_sources top (prune_hidden fs) = python_sources top fs).
  { clear; induction fs as [c|entries IH] using fs_node_entries_ind;
      intros top; [reflexivity|].
    simpl; rewrite !flat_map_flat_map; f_equal.
    - apply flat_map_ext; intros [name [c|es]]; simpl.
      + rewrite app_nil_r; reflexivity.
      + destruct (startswith name "."); reflexivity.
    - apply flat_map_ext_In; intros [name [c|es]] Hin; simpl;
        [reflexivity|].
      destruct (startswith name ".") eqn:E; simpl; [reflexivity|].
      unfold is_dir; simpl; rewrite E, app_nil_r; simpl.
      apply (IH name (Directory es) Hin). }
  split; [apply H|].
  rewrite <- !python_sources_paths, H; reflexivity.
Qed.

(** * The order and the content of the registry *)

(** ** Keys, in the order of their first assignment *)

Lemma existsb_eqb_In (k : string) (ks : list string) :
  existsb (String.eqb k) ks = true <-> In k ks.
Proof.
  rewrite existsb_exists; split.
  - intros (x & Hx & E); apply String.eqb_eq in E; subst; exact Hx.
  - intros H; exists k; split; [exact H | apply String.eqb_refl].
Qed.

Lemma mem_existsb {V : Type} (k : string) (d : Dict.t V) :
  Dict.mem k d = existsb (String.eqb k) (Dict.keys d).
Proof.
  destruct (Dict.mem k d) eqn:E; symmetry.
  - apply existsb_eqb_In, mem_In, E.
  - destruct (existsb (String.eqb k) (Dict.keys d)) eqn:E'; [|reflexivity].
    apply existsb_eqb_In, mem_In in E'; congruence.
Qed.

Lemma keys_set_add_key {V : Type} (k : string) (v : V) (d : Dict.t V) :
  Dict.keys (Dict.set k v d) = add_key (Dict.keys d) k.
Proof.
  rewrite keys_set, mem_existsb; unfold add_key.
  destruct (existsb (String.eqb k) (Dict.keys d));
    [apply app_nil_r | reflexivity].
Qed.

Lemma keys_update_add_keys {V : Type} (d o : Dict.t V) :
  Dict.keys (Dict.update d o) = add_keys (Dict.keys d) (Dict.keys o).
Proof.
  revert d; induction o as [|[k v] o IH]; intros d; [reflexivity|].
  rewrite update_cons, IH, keys_set_add_key; reflexivity.
Qed.

Lemma add_keys_app (ks l1 l2 : list string) :
  add_keys ks (l1 ++ l2) = add_keys (add_keys ks l1) l2.
Proof. apply fold_left_app. Qed.

Lemma add_key_present (ks : list string) (k : string) :
  In k ks -> add_key ks k = ks.
Proof.
  intros H; unfold add_key.
  rewrite (proj2 (existsb_eqb_In k ks) H); reflexivity.
Qed.

Lemma In_add_key (ks : list string) (k x : string) :
  In x ks -> In x (add_key ks k).
Proof.
  intros H; unfold add_key; destruct (existsb (String.eqb k) ks);
    [exact H | apply in_or_app; left; exact H].
Qed.

Lemma In_add_key_self (ks : list string) (k : string) : In k (add_key ks k).
Proof.
  unfold add_key; destruct (existsb (String.eqb k) ks) eqn:E.
  - apply existsb_eqb_In, E.
  - apply in_or_app; right; left; reflexivity.
Qed.

Lemma add_keys_filter_present (x : string) (l ks : list string) :
  In x ks ->
  add_keys ks (filter (fun y => negb (String.eqb y x)) l) = add_keys ks l.
Proof.
  revert ks; induction l as [|y l IH]; intros ks H; simpl; [reflexivity|].
  destruct (String.eqb y x) eqn:E; simpl.
  - apply String.eqb_eq in E; subst y.
    rewrite (add_key_present ks x H); apply IH, H.
  - apply IH, In_add_key, H.
Qed.

Lemma add_keys_first_occurrences (names ks : list string) :
  add_keys ks (first_occurrences names) = add_keys ks names.
Proof.
  revert ks; induction names as [|x r IH]; intros ks; simpl; [reflexivity|].
  rewrite add_keys_filter_present by apply In_add_key_self.
  apply IH.
Qed.

Lemma filter_absent_present (x : string) (ks l : list string) :
  existsb (String.eqb x) ks = true ->
  filter (fun y => negb (existsb (String.eqb y) ks))
    (filter (fun y => negb (String.eqb y x)) l)
  = filter (fun y => negb (existsb (String.eqb y) ks)) l.
Proof.
  intros E; induction l as [|y l IH]; simpl; [reflexivity|].
  destruct (String.eqb y x) eqn:Eyx; simpl.
  - apply String.eqb_eq in Eyx; subst y; rewrite E; exact IH.
  - rewrite IH; reflexivity.
Qed.

Lemma filter_absent_snoc (x : string) (ks l : list string) :
  filter (fun y => negb (existsb (String.eqb y) (ks ++ [x]))) l
  = filter (fun y => negb (existsb (String.eqb y) ks))
      (filter (fun y => negb (String.eqb y x)) l).
Proof.
  induction l as [|y l IH]; simpl; [reflexivity|].
  rewrite existsb_app; simpl; rewrite orb_false_r, IH.
  destruct (String.eqb y x); simpl.
  - rewrite orb_true_r; reflexivity.
  - rewrite orb_false_r; reflexivity.
Qed.

Lemma add_keys_spec (names ks : list string) :
  add_keys ks names
  = ks ++ filter (fun y => negb (existsb (String.eqb y) ks))
            (first_occurrences names).
Proof.
  revert ks; induction names as [|x r IH]; intros ks; simpl.
  - rewrite app_nil_r; reflexivity.
  - rewrite IH; unfold add_key.
    destruct (existsb (String.eqb x) ks) eqn:E; simpl.
    + rewrite filter_absent_present by exact E; reflexivity.
    + rewrite filter_absent_snoc, <- app_assoc; reflexivity.
Qed.

Lemma add_keys_nil (names : list string) :
  add_keys [] names = first_occurrences names.
Proof.
  rewrite add_keys_spec; simpl.
  induction (first_occurrences names) as [|y l IH]; simpl;
    [|rewrite IH]; reflexivity.
Qed.

Lemma def_names_app (a b : list node) :
  def_names (a ++ b) = def_names a ++ def_names b.
Proof. apply flat_map_app. Qed.

Lemma def_names_not_def (n : node) (l : list node) :
  is_FunctionDef n = false -> def_names (n :: l) = def_names l.
Proof. destruct n; simpl; congruence. Qed.

(** The keys after a traversal: one more for every new name, in the order
    of the [def] statements. *)
Lemma visit_keys (depth : nat) (n : node) (s s' : analyzer) :
  visit depth n s = Ok s' ->
  Dict.keys (functions s')
  = add_keys (Dict.keys (functions s)) (def_names (subnodes n)).
Proof.
  revert depth s s'; revert n.
  apply (visit_ind
           (fun n s s' =>
              Dict.keys (functions s')
              = add_keys (Dict.keys (functions s)) (def_names (subnodes n)))
           (fun l s s' =>
              Dict.keys (functions s')
              = add_keys (Dict.keys (functions s))
                  (def_names (flat_map subnodes l)))); auto.
  - intros _ n l s s1 s2 _ _ Pn Ql; simpl.
    rewrite def_names_app, add_keys_app, Ql, Pn; reflexivity.
  - intros _ k ln a b d r tp s s' _ Q; rewrite subnodes_eq; simpl.
    rewrite Q; simpl; rewrite keys_set_add_key; reflexivity.
  - intros _ f a k s s1 s' H _ Q; rewrite subnodes_eq, Q.
    apply record_call_frame in H as (_ & _ & ->); reflexivity.
  - intros _ n s s' Hd _ _ Q; rewrite subnodes_eq, Q.
    fold (descendants n); rewrite (def_names_not_def n _ Hd); reflexivity.
Qed.

Lemma analyze_file_keys (f : source_file) :
  Dict.keys (fst (analyze_file f)) = first_occurrences (file_def_names f).
Proof.
  destruct f as [p [tree|m]]; unfold file_def_names; simpl; [|reflexivity].
  pose proof (analyze_file_parsed p tree) as E.
  destruct (traversed tree); [|rewrite E; reflexivity].
  destruct E as (s & H & ->); simpl.
  rewrite (visit_keys _ _ _ _ H); apply add_keys_nil.
Qed.

Lemma has_def_def_names (l : list node) :
  has_def l = false <-> def_names l = [].
Proof.
  unfold has_def, def_names; induction l as [|n l IH]; simpl; [tauto|].
  destruct n; simpl; rewrite ?IH; try tauto.
  split; discriminate.
Qed.



Lemma merge_files_keys (files : list source_file) (d : Dict.t func_info) :
  Dict.keys (fold_left merge_file files d)
  = add_keys (Dict.keys d) (flat_map file_def_names files).
Proof.
  revert d; induction files as [|f files IH]; intros d; simpl;
    [reflexivity|].
  rewrite IH, add_keys_app; unfold merge_file.
  rewrite keys_update_add_keys, analyze_file_keys,
    add_keys_first_occurrences.
  reflexivity.
Qed.


(** ** Records, by the last definition *)

Lemma analyze_file_record (k : string) (f : source_file) :
  Dict.get k (fst (analyze_file f)) = file_record k f.
Proof.
  destruct f as [p [tree|m]]; unfold file_record; simpl; [|reflexivity].
  apply analyze_file_get.
Qed.


Lemma merge_files_get (k : string) (files : list source_file)
  (d : Dict.t func_info) :
  Dict.get k (fold_left merge_file files d)
  = match last_file_record k files with
    | Some info => Some info
    | None => Dict.get k d
    end.
Proof.
  revert d; induction files as [|f files IH]; intros d; simpl;
    [reflexivity|].
  rewrite IH, merge_file_get, analyze_file_record.
  destruct (last_file_record k files); reflexivity.
Qed.



(** * From the clone to the report *)

(** ** Base names of joined paths *)

Lemma string_app_assoc (a b c : string) :
  ((a ++ b) ++ c = a ++ (b ++ c))%string.
Proof. induction a as [|x a IH]; simpl; [|rewrite IH]; reflexivity. Qed.

Lemma has_sep_startswith (b : string) :
  has_sep b = false -> startswith b "/" = false.
Proof.
  destruct b as [|c r]; [reflexivity|].
  simpl has_sep; intros H; apply orb_false_elim in H as (Hc & _).
  unfold startswith; cbn [String.prefix].
  destruct (Ascii.ascii_dec "/" c) as [<-|]; [discriminate | reflexivity].
Qed.

Lemma basename_no_sep (b : string) : has_sep b = false -> basename b = b.
Proof.
  destruct b as [|c r]; simpl; [reflexivity|].
  intros H; apply orb_false_elim in H as (Hc & Hr); rewrite Hr, Hc.
  reflexivity.
Qed.

Lemma has_sep_app_r (a b : string) :
  has_sep b = true -> has_sep (a ++ b) = true.
Proof.
  intros H; induction a as [|c a IH]; simpl; [exact H|].
  rewrite IH; apply orb_true_r.
Qed.

Lemma basename_app (a b : string) :
  has_sep b = true -> basename (a ++ b) = basename b.
Proof.
  intros H; induction a as [|c a IH]; simpl; [reflexivity|].
  rewrite (has_sep_app_r a b H); exact IH.
Qed.

Lemma basename_app_sep (a b : string) :
  has_sep b = false -> basename (a ++ "/" ++ b) = b.
Proof.
  intros H; rewrite basename_app by reflexivity; simpl; rewrite H.
  reflexivity.
Qed.

Lemma endswith_sep (a : string) :
  endswith a "/" = true -> exists a0, a = (a0 ++ "/")%string.
Proof.
  induction a as [|c r IH]; [discriminate|]; cbn [endswith].
  intros H; apply orb_true_iff in H as [H|H].
  - apply String.eqb_eq in H; exists ""; exact H.
  - destruct (IH H) as (r0 & ->); exists (String c r0); reflexivity.
Qed.

(** The base name of a path that [os.path.join] made from a directory and
    a name of a listing is that name. *)
Lemma basename_join (a b : string) :
  has_sep b = false -> basename (join a b) = b.
Proof.
  intros H; unfold join; rewrite (has_sep_startswith b H).
  destruct (String.eqb a "") eqn:Ea; simpl.
  - apply String.eqb_eq in Ea; subst a; apply basename_no_sep, H.
  - destruct (endswith a "/") eqn:Es.
    + apply endswith_sep in Es as (a0 & ->).
      rewrite string_app_assoc; apply basename_app_sep, H.
    + apply basename_app_sep, H.
Qed.

Lemma Forall2_flat_map {A B C : Type} (R : B -> C -> Prop)
  (f : A -> list B) (g : A -> list C) (l : list A) :
  (forall x, In x l -> Forall2 R (f x) (g x)) ->
  Forall2 R (flat_map f l) (flat_map g l).
Proof.
  induction l as [|x l IH]; simpl; intros H; [constructor|].
  apply Forall2_app; auto.
Qed.

Lemma plain_names_entry (name : string) (sub : fs_node)
  (entries : list (string * fs_node)) :
  plain_names (Directory entries) = true -> In (name, sub) entries ->
  has_sep name = false /\ plain_names sub = true.
Proof.
  simpl; rewrite forallb_forall; intros H Hin.
  specialize (H _ Hin); simpl in H.
  apply andb_true_iff in H as (Hn & Hs).
  split; [apply negb_true_iff, Hn | exact Hs].
Qed.

(** The files of one tree, cloned into two directories, cannot be told
    apart by the analysis. *)
Lemma python_sources_same_source (fs : fs_node) :
  plain_names fs = true ->
  forall top1 top2,
    Forall2 same_source (python_sources top1 fs) (python_sources top2 fs).
Proof.
  induction fs as [c|entries IH] using fs_node_entries_ind;
    intros Hp top1 top2; [constructor|].
  simpl; apply Forall2_app; apply Forall2_flat_map; intros [name sub] Hin;
    destruct (plain_names_entry name sub entries Hp Hin) as (Hn & Hs).
  - destruct sub as [c|es]; [|constructor].
    destruct (endswith name ".py"); constructor; [|constructor].
    unfold same_source; simpl; rewrite !basename_join by exact Hn.
    split; [reflexivity|]; destruct c; auto.
  - destruct (is_dir (name, sub) && negb (startswith name "."));
      [|constructor].
    apply (IH name sub Hin Hs).
Qed.

Lemma merge_files_same_source (run1 run2 : list source_file) :
  Forall2 same_source run1 run2 ->
  forall d, fold_left merge_file run1 d = fold_left merge_file run2 d.
Proof.
  induction 1 as [|f g l1 l2 Hfg _ IH]; intros d; simpl; [reflexivity|].
  unfold merge_file at 2 4; rewrite (analyze_file_same_source f g Hfg).
  apply IH.
Qed.

(** X6. The report of a repository does not depend on the directory it
    was cloned into: the same tree of files (its names, as in any listing,
    without ['/']) found by [find_python_files] under two directories and
    analyzed gives the same report. *)
Theorem report_independent_of_clone_directory (url top1 top2 : string)
  (fs : fs_node) :
  plain_names fs = true ->
  fst (generate_call_graph url (python_sources top1 fs))
  = fst (generate_call_graph url (python_sources top2 fs)).
Proof.
  intros Hp; rewrite !generate_call_graph_eq; simpl.
  rewrite (merge_files_same_source _ _
             (python_sources_same_source fs Hp top1 top2)).
  reflexivity.
Qed.

Lemma report_independent_of_clone_directory_witness :
  plain_names example_clone = true /\
  find_python_files "/tmp/tmpab12" example_clone
  = ["/tmp/tmpab12/a.py"; "/tmp/tmpab12/pkg/b.py";
     "/tmp/tmpab12/pkg/bad.py"] /\
  fst (generate_call_graph "url"
         (python_sources "/tmp/tmpab12" example_clone))
  = fst (generate_call_graph "url"
           (python_sources "/tmp/tmpxy89" example_clone)).
Proof.
  split; [reflexivity|]; split; [reflexivity|].
  exact (report_independent_of_clone_directory "url" "/tmp/tmpab12"
           "/tmp/tmpxy89" example_clone eq_refl).
Defined.

(** ** Where the records and the relationships come from *)

Lemma last_file_record_origin (k : string) (files : list source_file)
  (info : func_info) :
  last_file_record k files = Some info ->
  exists f, In f files /\ file_record k f = Some info.
Proof.
  induction files as [|f files IH]; simpl; [discriminate|].
  destruct (last_file_record k files) as [i|].
  - intros [= <-]; destruct (IH eq_refl) as (g & Hg & E); eauto.
  - intros H; eauto.
Qed.

Lemma file_record_origin (k : string) (f : source_file) (info : func_info) :
  file_record k f = Some info ->
  exists tree d,
    content f = Parsed tree /\ last_def k (subnodes tree) = Some d /\
    info = def_record (path f) k d.
Proof.
  unfold file_record; destruct (content f) as [tree|m]; [|discriminate].
  destruct (traversed tree); [|discriminate].
  destruct (last_def k (subnodes tree)) as [d|] eqn:E; [|discriminate].
  intros [= <-]; eauto.
Qed.

Lemma calls_before_def_origin (c : string) (l : list node) :
  In c (calls_before_def l) ->
  exists n, In n l /\ call_name n = Some c.
Proof.
  induction l as [|n l IH]; simpl; [tauto|].
  destruct (is_FunctionDef n); [intros []|].
  destruct (call_name n) as [c'|] eqn:E.
  - intros [<-|H]; [eauto|].
    destruct (IH H) as (m & Hm & Em); eauto.
  - intros H; destruct (IH H) as (m & Hm & Em); eauto.
Qed.

Lemma registry_record_origin (k : string) (files : list source_file)
  (info : func_info) :
  Dict.get k (fold_left merge_file files Dict.empty) = Some info ->
  exists f tree d,
    In f files /\ content f = Parsed tree /\
    last_def k (subnodes tree) = Some d /\
    info = def_record (path f) k d.
Proof.
  rewrite merge_files_get; simpl.
  destruct (last_file_record k files) as [i|] eqn:E; [|discriminate].
  intros [= <-].
  destruct (last_file_record_origin k files i E) as (f & Hf & Ef).
  destruct (file_record_origin k f i Ef) as (tree & d & Hc & Hd & ->).
  exists f, tree, d; auto.
Qed.

(** X7. The report holds no relationship that is not in the sources: the
    caller of every entry of [call_relationships] is the name of a [def]
    statement of a parsed file, its callee the name of a call written
    inside that statement, and its file the base name of that file. *)
Theorem relationships_come_from_calls (url : string)
  (python_files : list source_file) (rel : relationship) :
  In rel (call_relationships (fst (generate_call_graph url python_files))) ->
  exists f tree d n,
    In f python_files /\ content f = Parsed tree /\
    In d (subnodes tree) /\ defines (caller rel) d = true /\
    In n (descendants d) /\ is_Call n = true /\
    call_name n = Some (callee rel) /\
    caller_file rel = basename (path f).
Proof.
  rewrite generate_call_graph_eq; simpl; rewrite In_build_relationships.
  intros (k & info & Hin & Hc & Hk & Hf); subst k.
  apply In_get in Hin; [|apply merge_files_NoDup; constructor].
  destruct (registry_record_origin _ _ _ Hin)
    as (f & tree & d & Hfin & Hcont & Hd & ->).
  apply last_def_Some in Hd as (Hdef & Hdin).
  simpl in Hc, Hf; unfold own_calls in Hc.
  destruct (truthy (Some (caller rel))); [|destruct Hc].
  apply calls_before_def_origin in Hc as (n & Hn & En).
  exists f, tree, d, n; repeat split; auto.
  destruct n; simpl in En; try discriminate; reflexivity.
Qed.

Lemma relationships_come_from_calls_witness :
  let rel := {| caller := "outer"; callee := "x"; caller_file := "m.py" |} in
  let files := cloned_into "/tmp/tmpab12" in
  In rel (call_relationships (fst (generate_call_graph "url" files))) /\
  exists f tree d n,
    In f files /\ content f = Parsed tree /\
    In d (subnodes tree) /\ defines (caller rel) d = true /\
    In n (descendants d) /\ is_Call n = true /\
    call_name n = Some (callee rel) /\
    caller_file rel = basename (path f).
Proof.
  assert (H : In {| caller := "outer"; callee := "x"; caller_file := "m.py" |}
                (call_relationships
                   (fst (generate_call_graph "url"
                           (cloned_into "/tmp/tmpab12")))))
    by (left; reflexivity).
  split; [exact H|].
  exact (relationships_come_from_calls "url" _ _ H).
Defined.

(** ** Files of the report *)

Lemma python_sources_names (fs : fs_node) :
  plain_names fs = true ->
  forall top f, In f (python_sources top fs) ->
    endswith (basename (path f)) ".py" = true /\
    has_sep (basename (path f)) = false.
Proof.
  induction fs as [c|entries IH] using fs_node_entries_ind;
    intros Hp top f; [intros []|].
  simpl; rewrite in_app_iff, !in_flat_map.
  intros [([name sub] & Hin & Hf)|([name sub] & Hin & Hf)];
    destruct (plain_names_entry name sub entries Hp Hin) as (Hn & Hs).
  - destruct sub as [c|es]; [|destruct Hf].
    destruct (endswith name ".py") eqn:E; [|destruct Hf].
    destruct Hf as [<-|[]]; simpl; rewrite basename_join by exact Hn; auto.
  - destruct (is_dir (name, sub) && negb (startswith name "."));
      [|destruct Hf].
    apply (IH name sub Hin Hs _ _ Hf).
Qed.

(** X8. In the report of a cloned repository the file of every record is
    the bare name of a file of the clone: it ends in [.py] and holds no
    directory part, however deep the file lies. *)
Theorem report_files_are_python_names (url top : string) (fs : fs_node)
  (k : string) (info : func_info) :
  plain_names fs = true ->
  Dict.get k
    (graph_functions
       (fst (generate_call_graph url (python_sources top fs))))
  = Some info ->
  endswith (file info) ".py" = true /\ has_sep (file info) = false /\
  exists p, In p (find_python_files top fs) /\ file info = basename p.
Proof.
  rewrite generate_call_graph_eq; simpl; intros Hp Hg.
  destruct (registry_record_origin _ _ _ Hg)
    as (f & tree & d & Hfin & _ & _ & ->); simpl.
  destruct (python_sources_names fs Hp top f Hfin) as (He & Hs).
  repeat split; auto.
  exists (path f); split; [|reflexivity].
  rewrite <- python_sources_paths; apply in_map, Hfin.
Qed.

Lemma report_files_are_python_names_witness :
  let report :=
    fst (generate_call_graph "url"
           (python_sources "/tmp/tmpab12" example_clone)) in
  plain_names example_clone = true /\
  Dict.get "bar" (graph_functions report)
  = Some {| name := "bar"; file := "b.py"; line := 1; calls := [] |} /\
  endswith "b.py" ".py" = true /\ has_sep "b.py" = false.
Proof.
  split; [reflexivity|]; split; [reflexivity|].
  destruct (report_files_are_python_names "url" "/tmp/tmpab12" example_clone
              "bar" _ eq_refl eq_refl) as (H1 & H2 & _).
  split; [exact H1 | exact H2].
Defined.

(** * What a traversal touches *)

(** X9. The visit of a node that holds no [def] statement (a statement,
    an expression, a class without methods), when it completes, has
    changed one thing only: the names of its calls, in pre-order, are
    appended to the calls of the active function.  The active function,
    the keys and their order, every other record and the name, file and
    line of the active one are as they were; with no active function
    nothing has changed.  The visit completes only if the frames of the
    node were left. *)
Theorem visit_without_def_only_appends (depth : nat) (n : node)
  (s s' : analyzer) :
  has_def (subnodes n) = false -> visit depth n s = Ok s' ->
  frames n <= depth /\
  file_path s' = file_path s /\
  current_function s' = current_function s /\
  Dict.keys (functions s') = Dict.keys (functions s) /\
  forall k,
    Dict.get k (functions s')
    = if appending_to k s
      then option_map (add_calls (call_names (subnodes n)))
             (Dict.get k (functions s))
      else Dict.get k (functions s).
Proof.
  intros Hd H.
  split; [exact (visit_frames n depth s s' H)|].
  split; [exact (visit_file_path depth n s s' H)|].
  split; [rewrite (visit_current depth n s s' H), Hd; reflexivity|].
  split.
  - rewrite (visit_keys depth n s s' H),
      (proj1 (has_def_def_names _) Hd); reflexivity.
  - intros k; rewrite (visit_get depth n s s' k H); unfold record_after.
    rewrite (has_def_false_last_def k _ Hd), (calls_before_def_no_def _ Hd).
    reflexivity.
Qed.

Lemma visit_without_def_only_appends_witness :
  let s := enter_function "f" 1 (init "pkg/m.py") in
  let n := Expr (Call (Attribute (Call (Name "a") [] []) "b")
                   [Call (Name "c") [] []] []) in
  has_def (subnodes n) = false /\
  exists s',
    visit available_frames n s = Ok s' /\
    Dict.get "f" (functions s')
    = Some {| name := "f"; file := "m.py"; line := 1;
              calls := ["b"; "a"; "c"] |}.
Proof.
  split; [reflexivity|].
  eexists; split; [reflexivity|].
  destruct (visit_without_def_only_appends available_frames
              (Expr (Call (Attribute (Call (Name "a") [] []) "b")
                       [Call (Name "c") [] []] []))
              (enter_function "f" 1 (init "pkg/m.py")) _ eq_refl eq_refl)
    as (_ & _ & _ & _ & Hg).
  rewrite (Hg "f"); reflexivity.
Defined.

(** * More files *)

(** X10. Files analyzed later never remove a function and never move one:
    the keys of the registry after more files are the keys before, in the
    same order, followed by the names that are new, so [total_functions]
    can only grow. *)
Theorem later_files_only_add_functions (url : string)
  (files more : list source_file) :
  let before := fst (generate_call_graph url files) in
  let after := fst (generate_call_graph url (files ++ more)) in
  exists added,
    Dict.keys (graph_functions after)
    = Dict.keys (graph_functions before) ++ added /\
    (forall k, In k added -> ~ In k (Dict.keys (graph_functions before))) /\
    total_functions after = total_functions before + List.length added.
Proof.
  rewrite !generate_call_graph_eq; simpl; rewrite merge_files_app.
  set (d := fold_left merge_file files Dict.empty).
  rewrite merge_files_keys, add_keys_spec.
  eexists; split; [reflexivity|]; split.
  - intros k Hk; apply filter_In in Hk as (_ & Hk).
    apply negb_true_iff in Hk; intros Hin.
    apply existsb_eqb_In in Hin; congruence.
  - unfold Dict.len.
    rewrite <- (List.length_map fst (fold_left merge_file more d)).
    change (map fst (fold_left merge_file more d))
      with (Dict.keys (fold_left merge_file more d)).
    rewrite merge_files_keys, add_keys_spec, List.length_app.
    unfold Dict.keys; rewrite List.length_map; reflexivity.
Qed.

(** * What is printed *)


